(** * libhaloc: the loop-closure pipeline of [src/lc.cpp]

    A shallow embedding of [haloc::LoopClosure] (parameters, [init],
    [finalize], the two [setNode] overloads, [getLoopClosure] and [compute])
    and the properties of the candidate loop that the design document states.

    Conventions.
    - C++ [int] values are [Z]; the one place where an [int] meets a
      [size_t] (the comparison and the subtraction with [min_neighbour]) has
      the conversion written out ([to_size_t]), and so have the [int] sums
      over the ground truth of the driver ([wrap_int]).
    - Reference parameters ([int&], [string&], [tf::Transform&]) are an
      incoming value and a field of the returned record.
    - The working directory is a finite map from path to file content; calls
      to [fs::exists] and to [ROS_ERROR] are recorded in a trace of events.
    - OpenCV, tf, [haloc::Image] and [haloc::Hash] are collaborators whose
      code is not part of [lc.cpp]; they are the fields of the class
      [Toolkit]. The randomized estimators (RANSAC) and the random
      projections of the hash are functions of their arguments: one outcome
      per input.
    - [std::sort] enters [getLoopClosure] by its contract, the record
      [StdSort]; the implementation of libstdc++ is embedded as well
      ([gnu_sort]) and shown to meet the contract ([libstdcxx]). *)

From Stdlib Require Import ZArith Lia Sorted Permutation Ascii String.
From stdpp Require Import base numbers list strings gmap pretty sorting.

Open Scope Z_scope.

(** ** Collaborators *)

(** [cv::DMatch]: a correspondence between row [queryIdx] of the reference
    descriptors and row [trainIdx] of the candidate's descriptors. *)
Record DMatch := { queryIdx : nat; trainIdx : nat }.

Class Toolkit := {
  (* OpenCV and tf data *)
  Pixels : Type;                 (* cv::Mat holding an image *)
  Mat : Type;                    (* cv::Mat: descriptors, F, RANSAC status *)
  Point2f : Type;
  Point3f : Type;
  float : Type;                  (* C++ float and double values *)
  Transform : Type;              (* tf::Transform *)
  StereoCameraModel : Type;
  mat_empty : Mat;               (* cv::Mat() *)
  tf_identity : Transform;       (* after setIdentity() *)
  tf_default : Transform;        (* a default-constructed tf::Transform *)
  (* floating point *)
  float_lt : float → float → bool;
  float_add : float → float → float;
  to_float32 : float → float;    (* the cast (float) *)
  float_to_int : float → Z;      (* the cast (int) *)
  float_1e_3 : float;            (* the literal 1e-3 *)
  (* haloc::Image *)
  Image : Type;
  img_setParams : Image → string → float → float → Image;
  img_setCameraModel : Image → StereoCameraModel → Image;
  img_setMono : Image → Pixels → Image;
  img_setStereo : Image → Pixels → Pixels → Image;
  img_getKp : Image → list Point2f;
  img_getDesc : Image → Mat;
  img_get3D : Image → list Point3f;
  (* haloc::Hash *)
  Hash : Type;
  HashVal : Type;                (* vector<float> *)
  hash_setParams : Hash → Z → Hash;
  hash_isInitialized : Hash → bool;
  hash_init : Hash → Mat → bool → Hash;
  hash_getHash : Hash → Mat → HashVal;
  hash_match : Hash → HashVal → HashVal → float;
  (* haloc::Utils and OpenCV routines *)
  crossCheckThresholdMatching : Mat → Mat → float → list DMatch;
  findFundamentalMat : list Point2f → list Point2f → float → Mat * Mat;
  cv_sum : Mat → nat → float;    (* cv::sum(m)[k] *)
  solvePnPRansac :
    list Point3f → list Point2f → Mat → float → Mat * Mat * list Z;
  buildTransformation : Mat → Mat → Transform;
}.

(** [std::sort(first, last, comp)]: the standard promises a permutation of
    the range in which no element is [comp]-smaller than an element before
    it, and leaves the relative order of equivalent elements unspecified. *)
Record StdSort (A : Type) (comp : A → A → bool) := {
  std_sort :> list A → list A;
  std_sort_perm : ∀ l, l ≡ₚ std_sort l;
  std_sort_sorted :
    ∀ l, StronglySorted (λ a b, comp b a = false) (std_sort l);
}.
Arguments std_sort {A comp} _ _.
Arguments std_sort_perm {A comp} _ _.
Arguments std_sort_sorted {A comp} _ _.

(** ** Data model *)

Section LoopClosure.
Context `{TK : Toolkit}.

(** [haloc::LoopClosure::Params]. *)
Record Params := {
  work_dir : string;
  desc_type : string;
  num_proj : Z;
  desc_thresh : float;
  epipolar_thresh : float;
  min_neighbour : Z;
  n_candidates : Z;
  min_matches : Z;
  min_inliers : Z;
  max_reproj_err : float;
  validate : bool;
}.

(** The members of [haloc::LoopClosure]. *)
Record LoopClosure := {
  params_ : Params;
  img_ : Image;
  hash_ : Hash;
  camera_matrix_ : Mat;
  hash_table_ : list (Z * HashVal);
  img_idx_ : Z;
}.

(** A [.yml] file of the working directory: the four fields [setNode]
    writes, or a file that [FileStorage::open] cannot read. *)
Inductive YmlFile :=
  | Yml (name : string) (kp : list Point2f) (desc : Mat)
        (threed : list Point3f)
  | Unreadable.

(** The working directory: whether it exists, and its files by full path. *)
Record World := {
  dir_ok : bool;
  files : gmap string YmlFile;
}.

Inductive Event :=
  | FsExists (path : string)     (* a call of fs::exists *)
  | RosError (msg : string).     (* a call of ROS_ERROR *)

(** An [int] compared with, or subtracted from, a [size_t] is first
    converted to [size_t] (64 bits). *)
Definition to_size_t (z : Z) : Z := z mod 2 ^ 64.

(** [work_dir + "/" + lexical_cast<string>(idx) + ".yml"]. *)
Definition record_file (p : Params) (idx : Z) : string :=
  work_dir p +:+ "/" +:+ pretty idx +:+ ".yml".

(** ** [compute] *)

(** What [compute] returns and leaves in its reference parameters. *)
Record Verified := {
  v_valid : bool;
  v_lc_name : string;
  v_matches : Z;
  v_inliers : Z;
  v_trans : Transform;
  v_trace : list Event;
}.

(** [fs["name"] >> ...]: the four fields of an opened file; a storage that
    is not opened yields empty nodes, which read as empty values. *)
Definition yml_fields (f : YmlFile)
  : string * list Point2f * Mat * list Point3f :=
  match f with
  | Yml name kp desc threed => (name, kp, desc, threed)
  | Unreadable => (EmptyString, [], mat_empty, [])
  end.

Definition open_error : string :=
  "[Haloc:] ERROR -> Failed to open the image keypoints and descriptors.".

(** The matched keypoints: [kp[m.queryIdx]] (resp. [trainIdx]) for every
    match, in order. An index outside the vector is undefined behaviour in
    the source and cannot come from the matcher, whose indices are rows of
    the two descriptor matrices; the model skips such a match. *)
Definition matched_points (kp : list Point2f) (sel : DMatch → nat)
    (ms : list DMatch) : list Point2f :=
  omap (λ m, kp !! sel m) ms.

Definition compute (lc : LoopClosure) (w : World) (ref_image : Image)
    (cur_filename : string) (lc_name : string) (trans : Transform)
  : Verified :=
  let p := params_ lc in
  (* matches = 0; inliers = 0; if (!fs::exists(cur_filename)) return false *)
  match files w !! cur_filename with
  | None =>
      {| v_valid := false; v_lc_name := lc_name; v_matches := 0;
         v_inliers := 0; v_trans := trans;
         v_trace := [FsExists cur_filename] |}
  | Some f =>
      let tr := FsExists cur_filename ::
                match f with Unreadable => [RosError open_error] | _ => [] end in
      let '(name, cur_kp, cur_desc, points_3d) := yml_fields f in
      let desc_matches :=
        crossCheckThresholdMatching (img_getDesc ref_image) cur_desc
                                    (desc_thresh p) in
      let matches := Z.of_nat (length desc_matches) in
      if matches <? min_matches p then
        {| v_valid := false; v_lc_name := name; v_matches := matches;
           v_inliers := 0; v_trans := trans; v_trace := tr |}
      else
        let ref_points :=
          matched_points (img_getKp ref_image) queryIdx desc_matches in
        let cur_points := matched_points cur_kp trainIdx desc_matches in
        match points_3d with
        | [] => (* Mono *)
            let '(F, status) :=
              findFundamentalMat ref_points cur_points (epipolar_thresh p) in
            let f_sum :=
              float_add (float_add (to_float32 (cv_sum F 0%nat))
                                   (to_float32 (cv_sum F 1%nat)))
                        (to_float32 (cv_sum F 2%nat)) in
            if float_lt f_sum float_1e_3 then
              {| v_valid := false; v_lc_name := name; v_matches := matches;
                 v_inliers := 0; v_trans := trans; v_trace := tr |}
            else
              let inliers := float_to_int (cv_sum status 0%nat) in
              if inliers <? min_inliers p then
                {| v_valid := false; v_lc_name := name; v_matches := matches;
                   v_inliers := inliers; v_trans := trans; v_trace := tr |}
              else
                {| v_valid := true; v_lc_name := name; v_matches := matches;
                   v_inliers := inliers; v_trans := trans; v_trace := tr |}
        | _ :: _ => (* Stereo *)
            let '(rvec, tvec, solvepnp_inliers) :=
              solvePnPRansac points_3d cur_points (camera_matrix_ lc)
                             (max_reproj_err p) in
            let inliers := Z.of_nat (length solvepnp_inliers) in
            if inliers <? min_inliers p then
              {| v_valid := false; v_lc_name := name; v_matches := matches;
                 v_inliers := inliers; v_trans := trans; v_trace := tr |}
            else
              {| v_valid := true; v_lc_name := name; v_matches := matches;
                 v_inliers := inliers;
                 v_trans := buildTransformation rvec tvec; v_trace := tr |}
        end
  end.

(** ** [getLoopClosure] *)

(** Modelled from the spec: [haloc::Utils::sortByMatching] (declared in
    [libhaloc/utils.h], which is not among the sources). The ranking is
    ascending by dissimilarity score, so the comparator orders two
    (index, score) pairs by [d1.second < d2.second]. *)
Definition sortByMatching (d1 d2 : Z * float) : bool :=
  float_lt d1.2 d2.2.

Context (sorter : StdSort (Z * float) sortByMatching).

(** The locals of the candidate loop. [best_m] is an [int] that counts up
    from 0, hence a [nat]. *)
Record Cursor := {
  best_m : nat;
  valid : bool;
  lc_name : string;
  matches : Z;
  inliers : Z;
  trans : Transform;
  trace : list Event;
}.

Inductive Control := Break | Continue.

(** One pass through the body of [while (best_m < params_.n_candidates)]. *)
Definition loop_body (lc : LoopClosure) (w : World)
    (matchings : list (Z * float)) (s : Cursor) : Control * Cursor :=
  match matchings !! best_m s with
  | None =>
      (* Sanity check: best_m >= matchings.size() *)
      (Break,
       {| best_m := 0; valid := valid s; lc_name := lc_name s;
          matches := matches s; inliers := inliers s; trans := trans s;
          trace := trace s |})
  | Some cand =>
      (* Loop-closure? *)
      let r := compute lc w (img_ lc) (record_file (params_ lc) cand.1)
                       (lc_name s) (trans s) in
      let s1 :=
        {| best_m := best_m s; valid := v_valid r; lc_name := v_lc_name r;
           matches := v_matches r; inliers := v_inliers r;
           trans := v_trans r; trace := trace s ++ v_trace r |} in
      if v_valid r && negb (validate (params_ lc)) then (Break, s1)
      else if v_valid r && validate (params_ lc) then
        (* Loop closure for the previous image? *)
        let r_prev :=
          compute lc w (img_ lc) (record_file (params_ lc) (cand.1 - 1))
                  EmptyString tf_default in
        if v_valid r_prev then
          (Break,
           {| best_m := best_m s; valid := true; lc_name := v_lc_name r;
              matches := v_matches r; inliers := v_inliers r;
              trans := v_trans r;
              trace := trace s ++ v_trace r ++ v_trace r_prev |})
        else
          (* try to validate with the next image *)
          let r_next :=
            compute lc w (img_ lc) (record_file (params_ lc) (cand.1 + 1))
                    (v_lc_name r_prev) (v_trans r_prev) in
          let tr := trace s ++ v_trace r ++ v_trace r_prev ++ v_trace r_next in
          if v_valid r_next then
            (Break,
             {| best_m := best_m s; valid := true; lc_name := v_lc_name r;
                matches := v_matches r; inliers := v_inliers r;
                trans := v_trans r; trace := tr |})
          else
            (Continue,
             {| best_m := S (best_m s); valid := false;
                lc_name := v_lc_name r; matches := v_matches r;
                inliers := v_inliers r; trans := v_trans r; trace := tr |})
      else
        (Continue,
         {| best_m := S (best_m s); valid := v_valid r;
            lc_name := v_lc_name r; matches := v_matches r;
            inliers := v_inliers r; trans := v_trans r;
            trace := trace s ++ v_trace r |})
  end.

(** The [while] loop, with a bound on the number of passes. *)
Fixpoint candidate_loop (fuel : nat) (lc : LoopClosure) (w : World)
    (matchings : list (Z * float)) (s : Cursor) : Cursor :=
  match fuel with
  | O => s
  | S fuel' =>
      if Z.of_nat (best_m s) <? n_candidates (params_ lc) then
        match loop_body lc w matchings s with
        | (Break, s') => s'
        | (Continue, s') => candidate_loop fuel' lc w matchings s'
        end
      else s
  end.

(** What [getLoopClosure] returns: the boolean, the three reference
    parameters, the object after the call and the events of the call. The
    arguments [lc_img_idx0], [lc_name0] and [trans0] of the model are the
    values the caller's variables hold on entry. *)
Record Closure := {
  c_valid : bool;
  c_lc_img_idx : Z;
  c_lc_name : string;
  c_trans : Transform;
  c_self : LoopClosure;
  c_trace : list Event;
}.

Definition set_hash (lc : LoopClosure) (h : Hash) : LoopClosure :=
  {| params_ := params_ lc; img_ := img_ lc; hash_ := h;
     camera_matrix_ := camera_matrix_ lc; hash_table_ := hash_table_ lc;
     img_idx_ := img_idx_ lc |}.

Definition set_hash_table (lc : LoopClosure) (t : list (Z * HashVal))
  : LoopClosure :=
  {| params_ := params_ lc; img_ := img_ lc; hash_ := hash_ lc;
     camera_matrix_ := camera_matrix_ lc; hash_table_ := t;
     img_idx_ := img_idx_ lc |}.

(** The entries the [for] loop scores: [hash_table_[i]] for
    [i < hash_table_.size() - params_.min_neighbour], the subtraction being
    one of [size_t]. The loop is reached only when the size exceeds the
    converted [min_neighbour], so the bound never exceeds the size. (The
    counter [i] is a 32-bit [uint]; a table of 2^32 entries, where it would
    wrap, does not fit the memory of the program.) *)
Definition scored_count (table_size : nat) (min_nb : Z) : nat :=
  Z.to_nat ((Z.of_nat table_size - to_size_t min_nb) mod 2 ^ 64).

Definition hash_matchings (h : Hash) (hash_val : HashVal)
    (table : list (Z * HashVal)) (min_nb : Z) : list (Z * float) :=
  (λ e, (e.1, hash_match h hash_val e.2))
    <$> take (scored_count (length table) min_nb) table.

(** The candidate list: the hash matchings, sorted with [sortByMatching]. *)
Definition ranking (h : Hash) (hash_val : HashVal)
    (table : list (Z * HashVal)) (min_nb : Z) : list (Z * float) :=
  sorter (hash_matchings h hash_val table min_nb).

(** The cursor on entering the candidate loop. *)
Definition cursor0 : Cursor :=
  {| best_m := 0; valid := false; lc_name := EmptyString; matches := 0;
     inliers := 0; trans := tf_identity; trace := [] |}.

Definition getLoopClosure (lc : LoopClosure) (w : World)
    (lc_img_idx0 : Z) (lc_name0 : string) (trans0 : Transform) : Closure :=
  (* Initialize hash *)
  if negb (hash_isInitialized (hash_ lc)) then
    {| c_valid := false; c_lc_img_idx := lc_img_idx0; c_lc_name := lc_name0;
       c_trans := trans0;
       c_self := set_hash lc (hash_init (hash_ lc) (img_getDesc (img_ lc)) true);
       c_trace := [] |}
  else
    (* Compute the hash for this image *)
    let hash_val := hash_getHash (hash_ lc) (img_getDesc (img_ lc)) in
    let table := hash_table_ lc ++ [(img_idx_ lc - 1, hash_val)] in
    let lc' := set_hash_table lc table in
    (* Check if enough neighbours *)
    if Z.of_nat (length table) <=? to_size_t (min_neighbour (params_ lc)) then
      {| c_valid := false; c_lc_img_idx := lc_img_idx0; c_lc_name := lc_name0;
         c_trans := trans0; c_self := lc'; c_trace := [] |}
    else
      (* Hash matchings of this image with the rest of the sequence, sorted *)
      let matchings :=
        ranking (hash_ lc) hash_val table (min_neighbour (params_ lc)) in
      (* Check for loop closure *)
      let s :=
        candidate_loop (Z.to_nat (n_candidates (params_ lc))) lc' w matchings
                       cursor0 in
      (* Get the image of the loop closure *)
      match (if valid s then matchings !! best_m s else None) with
      | Some cand =>
          {| c_valid := valid s; c_lc_img_idx := cand.1;
             c_lc_name := lc_name s; c_trans := trans s;
             c_self := lc'; c_trace := trace s |}
      | None =>
          {| c_valid := valid s; c_lc_img_idx := -1; c_lc_name := EmptyString;
             c_trans := trans s; c_self := lc'; c_trace := trace s |}
      end.

(** The overload without a transform: [tf::Transform trans; return
    getLoopClosure(lc_img_idx, lc_name, trans);]. *)
Definition getLoopClosure2 (lc : LoopClosure) (w : World)
    (lc_img_idx0 : Z) (lc_name0 : string) : Closure :=
  getLoopClosure lc w lc_img_idx0 lc_name0 tf_default.

(** ** Session life cycle and [setNode] *)

Definition setParams (lc : LoopClosure) (params : Params) : LoopClosure :=
  {| params_ := params; img_ := img_ lc; hash_ := hash_ lc;
     camera_matrix_ := camera_matrix_ lc; hash_table_ := hash_table_ lc;
     img_idx_ := img_idx_ lc |}.

Definition setCameraModel (lc : LoopClosure)
    (stereo_camera_model : StereoCameraModel) (camera_matrix : Mat)
  : LoopClosure :=
  {| params_ := params_ lc;
     img_ := img_setCameraModel (img_ lc) stereo_camera_model;
     hash_ := hash_ lc; camera_matrix_ := camera_matrix;
     hash_table_ := hash_table_ lc; img_idx_ := img_idx_ lc |}.

Definition mkdir_error : string :=
  "[Haloc:] ERROR -> Impossible to create the execution directory.".

Definition ends_with_slash (s : string) : bool :=
  match String.get (String.length s - 1)%nat s with
  | Some c => bool_decide (c = "/"%char)
  | None => false
  end.

(** [init]. [now] is what [time(0)] returns and [created] what
    [fs::create_directory] returns. The [World] of a session is the content
    of its execution directory, which [init] removes and creates anew.
    [fs::create_directory(dir)] is the throwing overload: when the directory
    cannot be made it raises [filesystem_error] and [init] does not return,
    which is no run of this function. It returns false only when a
    directory of that name is already there, which after the [remove_all]
    takes another process making it in between; [init] then logs the error
    and the session runs in that directory, here as empty as a new one. *)
Definition init (lc : LoopClosure) (now : Z) (created : bool)
  : LoopClosure * World * list Event :=
  let p := params_ lc in
  let dir :=
    if negb (ends_with_slash (work_dir p))
    then work_dir p +:+ "/ex_" +:+ pretty now
    else work_dir p +:+ "ex_" +:+ pretty now in
  let p' :=
    {| work_dir := dir; desc_type := desc_type p; num_proj := num_proj p;
       desc_thresh := desc_thresh p; epipolar_thresh := epipolar_thresh p;
       min_neighbour := min_neighbour p; n_candidates := n_candidates p;
       min_matches := min_matches p; min_inliers := min_inliers p;
       max_reproj_err := max_reproj_err p; validate := validate p |} in
  ({| params_ := p';
      img_ := img_setParams (img_ lc) (desc_type p) (desc_thresh p)
                            (epipolar_thresh p);
      hash_ := hash_setParams (hash_ lc) (num_proj p);
      camera_matrix_ := camera_matrix_ lc;
      hash_table_ := [];
      img_idx_ := 0 |},
   {| dir_ok := true; files := ∅ |},
   if created then [] else [RosError mkdir_error]).

(** [finalize]: remove the execution directory. *)
Definition finalize (w : World) : World :=
  if dir_ok w then {| dir_ok := false; files := ∅ |} else w.

(** A [FileStorage] opened for writing creates the file when its directory
    exists, and writes nothing otherwise. *)
Definition write_file (w : World) (path : string) (f : YmlFile) : World :=
  if dir_ok w
  then {| dir_ok := true; files := <[path := f]> (files w) |}
  else w.

Definition stored (lc : LoopClosure) (w : World) (im : Image) (f : YmlFile)
  : LoopClosure * World :=
  ({| params_ := params_ lc; img_ := im; hash_ := hash_ lc;
      camera_matrix_ := camera_matrix_ lc; hash_table_ := hash_table_ lc;
      img_idx_ := img_idx_ lc + 1 |},
   write_file w (record_file (params_ lc) (img_idx_ lc)) f).

(** [setNode(Mat img, string name)]. *)
Definition setNode (lc : LoopClosure) (w : World) (img : Pixels)
    (name : string) : LoopClosure * World :=
  let im := img_setMono (img_ lc) img in
  stored lc w im (Yml name (img_getKp im) (img_getDesc im) []).

(** [setNode(Mat img_l, Mat img_r, string name)]. *)
Definition setNode_stereo (lc : LoopClosure) (w : World)
    (img_l img_r : Pixels) (name : string) : LoopClosure * World :=
  let im := img_setStereo (img_ lc) img_l img_r in
  stored lc w im (Yml name (img_getKp im) (img_getDesc im) (img_get3D im)).

(** ** The per-step protocol: ingest an observation, then query *)

Inductive Observation :=
  | Mono (img : Pixels) (name : string)
  | Stereo (img_l img_r : Pixels) (name : string).

Definition ingest (st : LoopClosure * World) (o : Observation)
  : LoopClosure * World :=
  match o with
  | Mono img name => setNode st.1 st.2 img name
  | Stereo img_l img_r name => setNode_stereo st.1 st.2 img_l img_r name
  end.

(** One step of the driver ([examples/mono.cpp]): [setNode] followed by
    [getLoopClosure]. *)
Definition query (st : LoopClosure * World) (o : Observation)
    (lc_img_idx0 : Z) (lc_name0 : string) (trans0 : Transform) : Closure :=
  let st' := ingest st o in
  getLoopClosure st'.1 st'.2 lc_img_idx0 lc_name0 trans0.

Definition step (st : LoopClosure * World) (o : Observation)
  : LoopClosure * World :=
  (c_self (query st o (-1) EmptyString tf_default), (ingest st o).2).

(** The session after a history of observations, each ingested and queried. *)
Definition session (st : LoopClosure * World) (history : list Observation)
  : LoopClosure * World :=
  foldl step st history.

(** ** Vocabulary of the properties *)

(** The range of a C++ [int]. *)
Definition is_int (z : Z) : Prop := - 2 ^ 31 ≤ z < 2 ^ 31.

(** Whether the current image verifies against the record of index [idx]. *)
Definition verifies (lc : LoopClosure) (w : World) (idx : Z) : bool :=
  v_valid (compute lc w (img_ lc) (record_file (params_ lc) idx)
                   EmptyString tf_default).

(** The paths passed to [fs::exists], and the messages of [ROS_ERROR]. *)
Definition exists_calls (tr : list Event) : list string :=
  omap (λ e, match e with FsExists p => Some p | RosError _ => None end) tr.

Definition ros_errors (tr : list Event) : list string :=
  omap (λ e, match e with RosError m => Some m | FsExists _ => None end) tr.

(** The table once the entry of the current image is appended. *)
Definition appended (lc : LoopClosure) : list (Z * HashVal) :=
  hash_table_ lc ++
  [(img_idx_ lc - 1, hash_getHash (hash_ lc) (img_getDesc (img_ lc)))].

(** The candidate list of the current image. *)
Definition candidates (lc : LoopClosure) : list (Z * float) :=
  ranking (hash_ lc)
          (hash_getHash (hash_ lc) (img_getDesc (img_ lc)))
          (appended lc) (min_neighbour (params_ lc)).

(** The cursor when the candidate loop is left. *)
Definition final_cursor (lc : LoopClosure) (w : World) : Cursor :=
  candidate_loop (Z.to_nat (n_candidates (params_ lc)))
                 (set_hash_table lc (appended lc)) w (candidates lc) cursor0.

(** Whether [getLoopClosure] gets past its two early returns and enters
    the candidate loop. *)
Definition reaches_loop (lc : LoopClosure) : bool :=
  hash_isInitialized (hash_ lc) &&
  negb (Z.of_nat (length (appended lc))
        <=? to_size_t (min_neighbour (params_ lc))).

(** A file read as a mono record: its list of 3-D points is empty. *)
Definition mono_file (f : YmlFile) : bool :=
  match f with
  | Yml _ _ _ (_ :: _) => false
  | _ => true
  end.

(** Every record of the working directory is a mono record. *)
Definition mono_world (w : World) : Prop :=
  map_Forall (λ _ f, mono_file f = true) (files w).

(** Hash-table entries carry increasing observation indices below the
    running counter: the entry at position [i] is at least as far below
    [img_idx_] as it is from the end of the table. *)
Definition spaced (lc : LoopClosure) : Prop :=
  ∀ i e, hash_table_ lc !! i = Some e →
    e.1 + (Z.of_nat (length (hash_table_ lc)) - Z.of_nat i) ≤ img_idx_ lc.

(** The files of the working directory are the records of the indices
    handed out so far. *)
Definition indexed (st : LoopClosure * World) : Prop :=
  0 ≤ img_idx_ st.1 ∧
  ∀ path, is_Some (files st.2 !! path) →
    ∃ i, 0 ≤ i < img_idx_ st.1 ∧ path = record_file (params_ st.1) i.

(** The name stored in a file, as [fs["name"] >> lc_name] reads it. *)
Definition yml_name (f : YmlFile) : string := (yml_fields f).1.1.1.

(** What one pass of the candidate loop requires of a candidate: the
    primary verification and, with [validate], one of the two cross-checks. *)
Definition acceptable (lc : LoopClosure) (w : World) (idx : Z) : bool :=
  verifies lc w idx &&
  (negb (validate (params_ lc)) || verifies lc w (idx - 1)
   || verifies lc w (idx + 1)).

(** The candidates the loop can reach: the first [n_candidates] of the
    ranking. *)
Definition shortlist (lc : LoopClosure) : list (Z * float) :=
  take (Z.to_nat (n_candidates (params_ lc))) (candidates lc).

(** One pass of the candidate loop on [lc_name] and [trans]: both go by
    reference into the primary [compute] of candidate [c] and hold what it
    leaves in them. *)
Definition pass (lc : LoopClosure) (w : World) (acc : string * Transform)
    (c : Z * float) : string * Transform :=
  let v := compute lc w (img_ lc) (record_file (params_ lc) c.1)
                   acc.1 acc.2 in
  (v_lc_name v, v_trans v).

(** What [lc_name] and [trans], empty and the identity on entering the
    loop, hold once the candidates [cands] have been passed. *)
Definition carried (lc : LoopClosure) (w : World) (cands : list (Z * float))
  : string * Transform :=
  foldl (pass lc w) (EmptyString, tf_identity) cands.

(** The name an observation is ingested under. *)
Definition obs_name (o : Observation) : string :=
  match o with
  | Mono _ name => name
  | Stereo _ _ name => name
  end.

(** A working directory that does not exist holds no file. *)
Definition no_directory (w : World) : Prop :=
  dir_ok w = false ∧ files w = ∅.

End LoopClosure.

Arguments Params {TK}.
Arguments LoopClosure {TK}.
Arguments World {TK}.
Arguments YmlFile {TK}.
Arguments Verified {TK}.
Arguments Cursor {TK}.
Arguments Closure {TK}.
Arguments Observation {TK}.

(** ** A stable insertion sort, the simplest routine that meets the contract
    of [std::sort] *)

Section InsertionSorts.
Context {A : Type} (comp : A → A → bool).

(** Insertion that keeps [x] in front of the elements equivalent to it. *)
Fixpoint insert_before (x : A) (l : list A) : list A :=
  match l with
  | [] => [x]
  | y :: l' => if comp y x then y :: insert_before x l' else x :: l
  end.

(** Sorts and keeps equivalent elements in their original order. *)
Definition sort_keeping_ties (l : list A) : list A :=
  foldr insert_before [] l.

End InsertionSorts.

(** ** [std::sort] as libstdc++ implements it

    [getLoopClosure] ranks the candidates with [std::sort]. The program is
    built with GCC, whose library (bits/stl_algo.h and bits/stl_heap.h of
    libstdc++ 12) sorts by introsort: quicksort with a median-of-three
    pivot down to ranges of [_S_threshold] = 16 elements, heapsort once the
    recursion is deeper than twice the logarithm of the length, and one
    insertion sort over the whole range at the end. The range is a list
    and an iterator is a position in it. The heap routines move a value
    through a hole; here the hole holds the value, so that every move is a
    swap. The unguarded scans stop at the ends of the list, where the
    library relies on the comparator being a strict weak order. *)

Section LibstdcxxSort.
Context {A : Type} (comp : A → A → bool).

(** [__comp(i, j)] on two iterators. *)
Definition comp_at (l : list A) (i j : nat) : bool :=
  match l !! i, l !! j with
  | Some a, Some b => comp a b
  | _, _ => false
  end.

(** [std::iter_swap(i, j)]. *)
Definition iter_swap (l : list A) (i j : nat) : list A :=
  match l !! i, l !! j with
  | Some a, Some b => <[j := a]> (<[i := b]> l)
  | _, _ => l
  end.

(** [std::__move_median_to_first(result, a, b, c, comp)]. *)
Definition move_median_to_first (l : list A) (result a b c : nat) : list A :=
  if comp_at l a b then
    if comp_at l b c then iter_swap l result b
    else if comp_at l a c then iter_swap l result c
    else iter_swap l result a
  else if comp_at l a c then iter_swap l result a
  else if comp_at l b c then iter_swap l result c
  else iter_swap l result b.

(** [while (__comp(__first, __pivot)) ++__first;] *)
Fixpoint scan_up (fuel : nat) (l : list A) (pivot first : nat) : nat :=
  match fuel with
  | O => first
  | S fuel' =>
      if comp_at l first pivot then scan_up fuel' l pivot (S first) else first
  end.

(** [while (__comp(__pivot, __last)) --__last;] *)
Fixpoint scan_down (fuel : nat) (l : list A) (pivot last : nat) : nat :=
  match fuel with
  | O => last
  | S fuel' =>
      if comp_at l pivot last then scan_down fuel' l pivot (pred last) else last
  end.

(** [std::__unguarded_partition(first, last, pivot, comp)]: each pass scans
    up, decrements [last] and scans down, returns [first] when the two
    have met and swaps and advances [first] otherwise. *)
Fixpoint unguarded_partition (fuel : nat) (l : list A) (first last pivot : nat)
  : list A * nat :=
  match fuel with
  | O => (l, first)
  | S fuel' =>
      let first := scan_up (length l) l pivot first in
      let last := scan_down (length l) l pivot (pred last) in
      if negb (first <? last)%nat then (l, first)
      else unguarded_partition fuel' (iter_swap l first last) (S first) last pivot
  end.

(** [std::__unguarded_partition_pivot(first, last, comp)]. *)
Definition unguarded_partition_pivot (l : list A) (first last : nat)
  : list A * nat :=
  let mid := (first + (last - first) / 2)%nat in
  let l := move_median_to_first l first (first + 1) mid (last - 1) in
  unguarded_partition (length l) l (first + 1) last first.

(** [std::__push_heap(first, holeIndex, topIndex, value, comp)]. *)
Fixpoint push_heap (fuel : nat) (l : list A) (first holeIndex topIndex : nat)
  : list A :=
  match fuel with
  | O => l
  | S fuel' =>
      let parent := ((holeIndex - 1) / 2)%nat in
      if (topIndex <? holeIndex)%nat
         && comp_at l (first + parent) (first + holeIndex) then
        push_heap fuel' (iter_swap l (first + holeIndex) (first + parent))
                  first parent topIndex
      else l
  end.

(** The first loop of [std::__adjust_heap]: the hole goes down to the
    larger child while it has two children. *)
Fixpoint sift_down (fuel : nat) (l : list A) (first holeIndex len : nat)
  : list A * nat :=
  match fuel with
  | O => (l, holeIndex)
  | S fuel' =>
      if (holeIndex <? (len - 1) / 2)%nat then
        let secondChild := (2 * (holeIndex + 1))%nat in
        let secondChild :=
          if comp_at l (first + secondChild) (first + (secondChild - 1))
          then (secondChild - 1)%nat else secondChild in
        sift_down fuel' (iter_swap l (first + holeIndex) (first + secondChild))
                  first secondChild len
      else (l, holeIndex)
  end.

(** [std::__adjust_heap(first, holeIndex, len, value, comp)]. *)
Definition adjust_heap (l : list A) (first holeIndex len : nat) : list A :=
  let topIndex := holeIndex in
  let '(l, hole) := sift_down len l first holeIndex len in
  let '(l, hole) :=
    if Nat.even len && (hole =? (len - 2) / 2)%nat then
      let secondChild := (2 * (hole + 1))%nat in
      (iter_swap l (first + hole) (first + (secondChild - 1)),
       (secondChild - 1)%nat)
    else (l, hole) in
  push_heap len l first hole topIndex.

(** [std::__pop_heap(first, last, result, comp)]. *)
Definition pop_heap (l : list A) (first last result : nat) : list A :=
  adjust_heap (iter_swap l result first) first 0 (last - first).

(** The loop of [std::__make_heap], from [parent] down to 0. *)
Fixpoint make_heap_loop (l : list A) (first len parent : nat) : list A :=
  let l := adjust_heap l first parent len in
  match parent with
  | O => l
  | S parent' => make_heap_loop l first len parent'
  end.

(** [std::__make_heap(first, last, comp)]. *)
Definition make_heap (l : list A) (first last : nat) : list A :=
  if (last - first <? 2)%nat then l
  else make_heap_loop l first (last - first) ((last - first - 2) / 2).

(** The loop of [std::__heap_select] over [middle .. last). *)
Fixpoint heap_select_loop (n : nat) (l : list A) (first middle i : nat)
  : list A :=
  match n with
  | O => l
  | S n' =>
      let l := if comp_at l i first then pop_heap l first middle i else l in
      heap_select_loop n' l first middle (S i)
  end.

(** [std::__heap_select(first, middle, last, comp)]. *)
Definition heap_select (l : list A) (first middle last : nat) : list A :=
  heap_select_loop (last - middle) (make_heap l first middle) first middle middle.

(** The loop of [std::__sort_heap]: while [last - first > 1], decrement
    [last] and pop the heap into it. *)
Fixpoint sort_heap_loop (n : nat) (l : list A) (first : nat) : list A :=
  match n with
  | S (S _ as n') =>
      sort_heap_loop n' (pop_heap l first (first + n') (first + n')) first
  | _ => l
  end.

(** [std::__sort_heap(first, last, comp)]. *)
Definition sort_heap (l : list A) (first last : nat) : list A :=
  sort_heap_loop (last - first) l first.

(** [std::__partial_sort(first, middle, last, comp)]. *)
Definition partial_sort (l : list A) (first middle last : nat) : list A :=
  sort_heap (heap_select l first middle last) first middle.

(** [enum { _S_threshold = 16 }]. *)
Definition S_threshold : nat := 16.

(** [std::__introsort_loop(first, last, depth_limit, comp)]: the library
    recurses on the upper part and loops on the lower part with the
    decremented depth limit. *)
Fixpoint introsort_loop (depth_limit : nat) (l : list A) (first last : nat)
  : list A :=
  if (S_threshold <? last - first)%nat then
    match depth_limit with
    | O => partial_sort l first last last
    | S depth_limit' =>
        let '(l, cut) := unguarded_partition_pivot l first last in
        let l := introsort_loop depth_limit' l cut last in
        introsort_loop depth_limit' l first cut
    end
  else l.

(** The scan of [std::__unguarded_linear_insert], over the elements in
    front of [val] from the nearest to the farthest. *)
Fixpoint insert_backwards (val : A) (before : list A) : list A :=
  match before with
  | [] => [val]
  | next :: rest =>
      if comp val next then next :: insert_backwards val rest
      else val :: before
  end.

(** [std::__unguarded_linear_insert(last, comp)], where [sorted] is the
    range in front of [last] and [val] the element at [last]. *)
Definition unguarded_linear_insert (sorted : list A) (val : A) : list A :=
  reverse (insert_backwards val (reverse sorted)).

(** One pass of the loop of [std::__insertion_sort]. *)
Definition insertion_step (sorted : list A) (val : A) : list A :=
  match sorted with
  | [] => [val]
  | first :: _ =>
      if comp val first then val :: sorted
      else unguarded_linear_insert sorted val
  end.

(** [std::__insertion_sort(first, last, comp)]. *)
Definition insertion_sort (l : list A) : list A :=
  foldl insertion_step [] l.

(** [std::__final_insertion_sort(first, last, comp)]. *)
Definition final_insertion_sort (l : list A) : list A :=
  if (S_threshold <? length l)%nat then
    foldl unguarded_linear_insert (insertion_sort (take S_threshold l))
          (drop S_threshold l)
  else insertion_sort l.

(** [std::__sort(first, last, comp)], which [std::sort] calls. *)
Definition gnu_sort (l : list A) : list A :=
  match l with
  | [] => []
  | _ =>
      final_insertion_sort
        (introsort_loop (Nat.log2 (length l) * 2) l 0 (length l))
  end.

End LibstdcxxSort.

(** ** The evaluation of [examples/mono.cpp]

    [Mono::processData] feeds a directory of images to the library and
    scores every reported closure against a ground-truth matrix. The model
    keeps the scoring: the ground-truth matrix is a list of rows of [int],
    and what the library answered for the images, in order, is a list of
    pairs (valid, img_lc). Reading a vector outside its bounds and dividing
    by zero are undefined in the source and are [None] here. *)

Module MonoDriver.

(** A sum of [int]s as the program computes it: the 32-bit addition of
    the machine, which wraps around. *)
Definition wrap_int (z : Z) : Z := (z + 2 ^ 31) mod 2 ^ 32 - 2 ^ 31.

Definition int_add (a b : Z) : Z := wrap_int (a + b).

(** [total_lc]: the rows of the ground truth whose sum, the [int]
    [accumulate(row.begin(), row.end(), 0)], is positive. *)
Definition total_lc (ground_truth : list (list Z)) : Z :=
  Z.of_nat (length (filter (λ row, 0 < foldl int_add 0 row) ground_truth)).

(** [for (int i=0; i<2*gt_tolerance_+1; i++)]: [n] passes are left, [i] is
    the counter and [gt_valid] the sum so far, an [int] that [+=] adds to. *)
Fixpoint gt_loop (row : list Z) (img_lc gt_tolerance : Z) (n : nat) (i : Z)
    (gt_valid : Z) : option Z :=
  match n with
  | O => Some gt_valid
  | S n' =>
      let img_j := img_lc - gt_tolerance + i in
      let img_j := if img_j <? 0 then 0 else img_j in
      match row !! Z.to_nat img_j with
      | Some g =>
          gt_loop row img_lc gt_tolerance n' (i + 1) (int_add gt_valid g)
      | None => None
      end
  end.

Definition gt_valid (row : list Z) (img_lc gt_tolerance : Z) : option Z :=
  gt_loop row img_lc gt_tolerance (Z.to_nat (2 * gt_tolerance + 1)) 0 0.

(** The counters of [processData]. *)
Record Tally := {
  found_lc : Z;
  true_positives : Z;
  false_positives : Z;
}.

Definition tally0 : Tally :=
  {| found_lc := 0; true_positives := 0; false_positives := 0 |}.

(** The body of [if (valid) { ... }] for image [img_i]. *)
Definition check_closure (ground_truth : list (list Z)) (gt_tolerance : Z)
    (t : Tally) (img_i : nat) (valid : bool) (img_lc : Z) : option Tally :=
  if valid then
    match ground_truth !! img_i with
    | None => None
    | Some row =>
        match gt_valid row img_lc gt_tolerance with
        | None => None
        | Some g =>
            if 1 <=? g then
              Some {| found_lc := found_lc t + 1;
                      true_positives := true_positives t + 1;
                      false_positives := false_positives t |}
            else
              Some {| found_lc := found_lc t + 1;
                      true_positives := true_positives t;
                      false_positives := false_positives t + 1 |}
        end
    end
  else Some t.

(** The loop over the images, [img_i] counting them. *)
Fixpoint score (ground_truth : list (list Z)) (gt_tolerance : Z)
    (results : list (bool * Z)) (img_i : nat) (t : Tally) : option Tally :=
  match results with
  | [] => Some t
  | (valid, img_lc) :: rest =>
      match check_closure ground_truth gt_tolerance t img_i valid img_lc with
      | None => None
      | Some t' => score ground_truth gt_tolerance rest (S img_i) t'
      end
  end.

(** Division of [int]s: truncated, undefined for a zero divisor. *)
Definition int_div (a b : Z) : option Z :=
  if b =? 0 then None else Some (Z.quot a b).

(** [round(100 * true_positives / (true_positives + false_positives))]: the
    quotient is already an [int]. *)
Definition precision (t : Tally) : option Z :=
  int_div (100 * true_positives t) (true_positives t + false_positives t).

(** [false_negatives = total_lc - found_lc] and
    [round(100 * true_positives / (true_positives + false_negatives))]. *)
Definition recall (total : Z) (t : Tally) : option Z :=
  let false_negatives := total - found_lc t in
  int_div (100 * true_positives t) (true_positives t + false_negatives).

End MonoDriver.

(** ** A small concrete toolkit, to run the model

    Images are lists of feature labels; two descriptor sets match on the
    labels they share; scores and sums are rationals; a transform is an
    integer, 0 being the identity. *)

Module Toy.

Import QArith_base(Q, Qmake, Qnum, Qden, inject_Z, Qplus, Qle_bool).

Definition q_of_nat (n : nat) : Q := inject_Z (Z.of_nat n).

Definition cross_check (ref cur : list nat) (thresh : Q) : list DMatch :=
  mjoin (imap (λ i x,
                 match list_find (λ y, y = x) cur with
                 | Some (j, _) => [{| queryIdx := i; trainIdx := j |}]
                 | None => []
                 end) ref).

Record image := { i_kp : list nat; i_desc : list nat; i_3d : list nat }.

#[export] Instance toolkit : Toolkit := {|
  Pixels := list nat;
  Mat := list nat;
  Point2f := nat;
  Point3f := nat;
  float := Q;
  Transform := Z;
  StereoCameraModel := unit;
  mat_empty := [];
  tf_identity := 0;
  tf_default := -1;
  float_lt := λ a b, negb (Qle_bool b a);
  float_add := Qplus;
  to_float32 := λ a, a;
  float_to_int := λ a, Z.quot (Qnum a) (Z.pos (Qden a));
  float_1e_3 := Qmake 1 1000;
  Image := image;
  img_setParams := λ im _ _ _, im;
  img_setCameraModel := λ im _, im;
  img_setMono := λ _ px, {| i_kp := px; i_desc := px; i_3d := [] |};
  img_setStereo := λ _ l r, {| i_kp := l; i_desc := l; i_3d := r |};
  img_getKp := i_kp;
  img_getDesc := i_desc;
  img_get3D := i_3d;
  Hash := bool;
  HashVal := Z;
  hash_setParams := λ h _, h;
  hash_isInitialized := λ h, h;
  hash_init := λ _ _ _, true;
  hash_getHash := λ _ desc, Z.of_nat (sum_list desc);
  hash_match := λ _ a b, inject_Z (Z.abs (a - b));
  crossCheckThresholdMatching := cross_check;
  findFundamentalMat := λ ref cur _, ([length ref], [length cur]);
  cv_sum := λ m k, q_of_nat (default 0%nat (m !! k));
  solvePnPRansac := λ p3d cur _ _,
    ([length p3d], [length cur], Z.of_nat <$> seq 0 (length cur));
  buildTransformation := λ r t, Z.of_nat (sum_list r + sum_list t);
|}.

Definition params (min_nb n_cand : Z) (val : bool) : Params :=
  {| work_dir := "/tmp"; desc_type := "SIFT"; num_proj := 2;
     desc_thresh := Qmake 4 5; epipolar_thresh := Qmake 1 1;
     min_neighbour := min_nb; n_candidates := n_cand; min_matches := 2;
     min_inliers := 2; max_reproj_err := Qmake 2 1; validate := val |}.

(** A constructed object with parameters set; [initialized] tells whether
    its hash engine has already been initialized. *)
Definition object (initialized : bool) (p : Params) : LoopClosure :=
  {| params_ := p; img_ := {| i_kp := []; i_desc := []; i_3d := [] |};
     hash_ := initialized; camera_matrix_ := []; hash_table_ := [];
     img_idx_ := 0 |}.

Definition started (initialized : bool) (p : Params)
  : LoopClosure * World :=
  (init (object initialized p) 0 true).1.

(** A place seen as image 1 and again as image 5; image 2 is next to it. *)
Definition revisit : list Observation :=
  [Mono [1; 2; 3] "img0"; Mono [10; 11; 12] "img1"; Mono [10; 11; 13] "img2";
   Mono [20; 21] "img3"; Mono [30; 31] "img4"]%nat.

(** The same, but the images next to image 1 show another place. *)
Definition lone_revisit : list Observation :=
  [Mono [1; 2; 3] "img0"; Mono [10; 11; 12] "img1"; Mono [40; 41] "img2";
   Mono [20; 21] "img3"; Mono [30; 31] "img4"]%nat.

(** A place seen as image 0 by an object whose hash engine was initialized
    in an earlier session. *)
Definition early_revisit : list Observation :=
  [Mono [10; 11; 12] "img0"; Mono [50; 51] "img1"; Mono [60; 61] "img2"]%nat.

(** Two images with the same hash. *)
Definition twins : list Observation :=
  [Mono [1; 2; 3] "img0"; Mono [10; 11; 12] "img1"; Mono [12; 11; 10] "img2";
   Mono [20; 21] "img3"; Mono [30; 31] "img4"]%nat.

(** Image 1 is a stereo pair of the place seen again as image 5; the
    images next to it show another place. *)
Definition lone_stereo : list Observation :=
  [Mono [1; 2; 3] "img0"; Stereo [10; 11; 12] [7; 8; 9] "img1";
   Mono [40; 41] "img2"; Mono [20; 21] "img3"; Mono [30; 31] "img4"]%nat.

(** Image 1 and image 2 are stereo pairs of the place seen again as
    image 5. *)
Definition stereo_revisit : list Observation :=
  [Mono [1; 2; 3] "img0"; Stereo [10; 11; 12] [7; 8; 9] "img1";
   Stereo [10; 11; 13] [4; 5] "img2"; Mono [20; 21] "img3";
   Mono [30; 31] "img4"]%nat.


Definition again : Observation := Mono [10; 11; 12]%nat "img5".

(** Image 4 seen again at once. *)
Definition linger : Observation := Mono [30; 31]%nat "img5".

(** The working directory with one file removed behind the session's back. *)
Definition without (path : string) (w : World) : World :=
  {| dir_ok := dir_ok w; files := delete path (files w) |}.

End Toy.

(** * Properties *)

(** ** The insertion sort meets the contract *)

Section InsertionSortsOk.
Context {A : Type} (comp : A → A → bool).
Hypothesis comp_asym : ∀ a b, comp a b = true → comp b a = false.
Hypothesis comp_incomparable :
  ∀ a b c, comp a b = false → comp b c = false → comp a c = false.

Abbreviation not_before := (λ a b : A, comp b a = false).

Lemma insert_before_perm x l : x :: l ≡ₚ insert_before comp x l.
Proof.
  induction l as [|y l IH]; simpl; [done|].
  destruct (comp y x); [|done].
  rewrite <- IH. apply Permutation_swap.
Qed.

Lemma sort_keeping_ties_perm l : l ≡ₚ sort_keeping_ties comp l.
Proof.
  induction l as [|x l IH]; simpl; [done|].
  rewrite <- insert_before_perm. by constructor.
Qed.

Lemma insert_before_sorted x l :
  StronglySorted not_before l → StronglySorted not_before (insert_before comp x l).
Proof.
  induction 1 as [|y l Hs IH Hall]; simpl.
  - repeat constructor.
  - destruct (comp y x) eqn:Hyx.
    + constructor; [done|].
      rewrite <- insert_before_perm. constructor; [by apply comp_asym | done].
    + constructor; [by constructor|].
      constructor; [done|].
      eapply Forall_impl; [exact Hall|]. simpl. intros b Hb. eauto.
Qed.

Lemma sort_keeping_ties_sorted l :
  StronglySorted not_before (sort_keeping_ties comp l).
Proof.
  induction l as [|x l IH]; simpl; [constructor|].
  by apply insert_before_sorted.
Qed.

End InsertionSortsOk.

(** ** The sort of libstdc++ meets the contract *)

Section LibstdcxxSortOk.
Context {A : Type} (comp : A → A → bool).

Lemma iter_swap_perm (l : list A) i j : iter_swap l i j ≡ₚ l.
Proof.
  unfold iter_swap.
  destruct (l !! i) as [a|] eqn:Hi; [|done].
  destruct (l !! j) as [b|] eqn:Hj; [|done].
  by apply Permutation_insert_swap.
Qed.

Lemma move_median_to_first_perm (l : list A) result a b c :
  move_median_to_first comp l result a b c ≡ₚ l.
Proof.
  unfold move_median_to_first.
  repeat (destruct (comp_at _ _ _ _)); apply iter_swap_perm.
Qed.

Lemma unguarded_partition_perm fuel (l : list A) first last pivot :
  (unguarded_partition comp fuel l first last pivot).1 ≡ₚ l.
Proof.
  revert l first last.
  induction fuel as [|fuel IH]; intros l first last; simpl; [done|].
  destruct (negb _); [done|].
  rewrite IH. apply iter_swap_perm.
Qed.

Lemma unguarded_partition_pivot_perm (l : list A) first last :
  (unguarded_partition_pivot comp l first last).1 ≡ₚ l.
Proof.
  unfold unguarded_partition_pivot.
  rewrite unguarded_partition_perm. apply move_median_to_first_perm.
Qed.

Lemma push_heap_perm fuel (l : list A) first holeIndex topIndex :
  push_heap comp fuel l first holeIndex topIndex ≡ₚ l.
Proof.
  revert l holeIndex.
  induction fuel as [|fuel IH]; intros l holeIndex; simpl; [done|].
  destruct (_ && _); [|done].
  rewrite IH. apply iter_swap_perm.
Qed.

Lemma sift_down_perm fuel (l : list A) first holeIndex len :
  (sift_down comp fuel l first holeIndex len).1 ≡ₚ l.
Proof.
  revert l holeIndex.
  induction fuel as [|fuel IH]; intros l holeIndex; simpl; [done|].
  destruct (_ <? _)%nat; [|done].
  rewrite IH. apply iter_swap_perm.
Qed.

Lemma adjust_heap_perm (l : list A) first holeIndex len :
  adjust_heap comp l first holeIndex len ≡ₚ l.
Proof.
  unfold adjust_heap.
  pose proof (sift_down_perm len l first holeIndex len) as Hs.
  destruct (sift_down comp len l first holeIndex len) as [l1 hole].
  simpl in Hs.
  destruct (_ && _); rewrite push_heap_perm, ?iter_swap_perm; done.
Qed.

Lemma pop_heap_perm (l : list A) first last result :
  pop_heap comp l first last result ≡ₚ l.
Proof. unfold pop_heap. rewrite adjust_heap_perm. apply iter_swap_perm. Qed.

Lemma make_heap_perm (l : list A) first last :
  make_heap comp l first last ≡ₚ l.
Proof.
  unfold make_heap. destruct (_ <? _)%nat; [done|].
  generalize ((last - first - 2) / 2)%nat. intros parent. revert l.
  induction parent as [|parent IH]; intros l; simpl.
  - apply adjust_heap_perm.
  - rewrite IH. apply adjust_heap_perm.
Qed.

Lemma heap_select_loop_perm n (l : list A) first middle i :
  heap_select_loop comp n l first middle i ≡ₚ l.
Proof.
  revert l i. induction n as [|n IH]; intros l i; simpl; [done|].
  rewrite IH. destruct (comp_at _ _ _ _); [apply pop_heap_perm|done].
Qed.

Lemma heap_select_perm (l : list A) first middle last :
  heap_select comp l first middle last ≡ₚ l.
Proof.
  unfold heap_select. by rewrite heap_select_loop_perm, make_heap_perm.
Qed.

Lemma sort_heap_perm (l : list A) first last :
  sort_heap comp l first last ≡ₚ l.
Proof.
  unfold sort_heap. generalize (last - first)%nat. intros n. revert l.
  induction n as [|n IH]; intros l; [done|].
  destruct n as [|n]; [done|].
  change (sort_heap_loop comp (S (S n)) l first)
    with (sort_heap_loop comp (S n)
            (pop_heap comp l first (first + S n) (first + S n)) first).
  rewrite IH. apply pop_heap_perm.
Qed.

Lemma partial_sort_perm (l : list A) first middle last :
  partial_sort comp l first middle last ≡ₚ l.
Proof. unfold partial_sort. by rewrite sort_heap_perm, heap_select_perm. Qed.

Lemma introsort_loop_perm depth_limit (l : list A) first last :
  introsort_loop comp depth_limit l first last ≡ₚ l.
Proof.
  revert l first last.
  induction depth_limit as [|d IH]; intros l first last; simpl.
  - destruct (_ <? _)%nat; [apply partial_sort_perm|done].
  - destruct (_ <? _)%nat; [|done].
    pose proof (unguarded_partition_pivot_perm l first last) as Hp.
    destruct (unguarded_partition_pivot comp l first last) as [l1 cut].
    simpl in Hp. by rewrite !IH.
Qed.

Lemma insert_backwards_perm (val : A) before :
  insert_backwards comp val before ≡ₚ val :: before.
Proof.
  induction before as [|next rest IH]; simpl; [done|].
  destruct (comp val next); [|done].
  rewrite IH. apply Permutation_swap.
Qed.

Lemma unguarded_linear_insert_perm (sorted : list A) val :
  unguarded_linear_insert comp sorted val ≡ₚ val :: sorted.
Proof.
  unfold unguarded_linear_insert.
  by rewrite reverse_Permutation, insert_backwards_perm, reverse_Permutation.
Qed.

Lemma insertion_step_perm (sorted : list A) val :
  insertion_step comp sorted val ≡ₚ val :: sorted.
Proof.
  unfold insertion_step. destruct sorted as [|first rest]; [done|].
  destruct (comp val first); [done|]. apply unguarded_linear_insert_perm.
Qed.

Lemma foldl_insert_perm (f : list A → A → list A) :
  (∀ s v, f s v ≡ₚ v :: s) →
  ∀ l acc, foldl f acc l ≡ₚ acc ++ l.
Proof.
  intros Hf l. induction l as [|x l IH]; intros acc; simpl.
  - by rewrite app_nil_r.
  - rewrite IH, Hf. by rewrite <- Permutation_middle.
Qed.

Lemma final_insertion_sort_perm (l : list A) :
  final_insertion_sort comp l ≡ₚ l.
Proof.
  unfold final_insertion_sort, insertion_sort.
  destruct (_ <? _)%nat.
  - rewrite (foldl_insert_perm _ (unguarded_linear_insert_perm)).
    rewrite (foldl_insert_perm _ (insertion_step_perm)). simpl.
    by rewrite take_drop.
  - by rewrite (foldl_insert_perm _ (insertion_step_perm)).
Qed.

Lemma gnu_sort_perm (l : list A) : l ≡ₚ gnu_sort comp l.
Proof.
  unfold gnu_sort. destruct l as [|x l]; [done|].
  by rewrite final_insertion_sort_perm, introsort_loop_perm.
Qed.

(** Sortedness, for a strict weak ordering. *)
Hypothesis comp_asym : ∀ a b, comp a b = true → comp b a = false.
Hypothesis comp_incomparable :
  ∀ a b c, comp a b = false → comp b c = false → comp a c = false.

Abbreviation not_before := (λ a b : A, comp b a = false).

Lemma unguarded_linear_insert_snoc (sorted : list A) y val :
  unguarded_linear_insert comp (sorted ++ [y]) val
  = if comp val y then unguarded_linear_insert comp sorted val ++ [y]
    else sorted ++ [y; val].
Proof.
  unfold unguarded_linear_insert. rewrite reverse_snoc. simpl.
  destruct (comp val y).
  - by rewrite reverse_cons.
  - rewrite !reverse_cons, reverse_involutive. by rewrite <- app_assoc.
Qed.

Lemma unguarded_linear_insert_sorted (sorted : list A) val :
  StronglySorted not_before sorted →
  StronglySorted not_before (unguarded_linear_insert comp sorted val).
Proof.
  induction sorted as [|y sorted IH] using rev_ind; intros Hs.
  { repeat constructor. }
  rewrite unguarded_linear_insert_snoc.
  apply StronglySorted_app in Hs as (Hall & Hs & _).
  destruct (comp val y) eqn:Hvy.
  - apply StronglySorted_app. split; [|split].
    + intros x1 x2 Hx1 ->%list_elem_of_singleton.
      rewrite unguarded_linear_insert_perm in Hx1.
      apply elem_of_cons in Hx1 as [->|Hx1]; [by apply comp_asym|].
      apply Hall; [done|]. by apply list_elem_of_singleton.
    + by apply IH.
    + repeat constructor.
  - replace (sorted ++ [y; val]) with ((sorted ++ [y]) ++ [val])
      by (by rewrite <- app_assoc).
    apply StronglySorted_app. split; [|split].
    + intros x1 x2 Hx1 ->%list_elem_of_singleton.
      apply elem_of_app in Hx1 as [Hx1| ->%list_elem_of_singleton]; [|done].
      apply comp_incomparable with y; [done|].
      apply Hall; [done|]. by apply list_elem_of_singleton.
    + apply StronglySorted_app. split; [done|]. split; [done|].
      repeat constructor.
    + repeat constructor.
Qed.

Lemma insertion_step_sorted (sorted : list A) val :
  StronglySorted not_before sorted →
  StronglySorted not_before (insertion_step comp sorted val).
Proof.
  intros Hs. unfold insertion_step.
  destruct sorted as [|first rest]; [repeat constructor|].
  destruct (comp val first) eqn:Hvf; [|by apply unguarded_linear_insert_sorted].
  constructor; [done|].
  apply StronglySorted_cons in Hs as [Hall _].
  constructor; [by apply comp_asym|].
  eapply Forall_impl; [exact Hall|]. simpl. intros y Hy.
  apply comp_incomparable with first; [done|by apply comp_asym].
Qed.

Lemma foldl_sorted (f : list A → A → list A) :
  (∀ s v, StronglySorted not_before s → StronglySorted not_before (f s v)) →
  ∀ l acc, StronglySorted not_before acc →
           StronglySorted not_before (foldl f acc l).
Proof.
  intros Hf l. induction l as [|x l IH]; intros acc Hacc; simpl; [done|].
  by apply IH, Hf.
Qed.

Lemma final_insertion_sort_sorted (l : list A) :
  StronglySorted not_before (final_insertion_sort comp l).
Proof.
  unfold final_insertion_sort, insertion_sort.
  destruct (_ <? _)%nat;
    repeat (apply foldl_sorted;
            [first [apply unguarded_linear_insert_sorted
                   | apply insertion_step_sorted] |]);
    constructor.
Qed.

Lemma gnu_sort_sorted (l : list A) :
  StronglySorted not_before (gnu_sort comp l).
Proof.
  unfold gnu_sort. destruct l; [constructor|].
  apply final_insertion_sort_sorted.
Qed.

End LibstdcxxSortOk.

(** ** The ranking of [getLoopClosure] under libstdc++ *)

Section LibstdcxxRanking.
Context `{TK : Toolkit}.

(** The scores are ordered numbers: [<] on them is asymmetric, and being
    unordered by it is transitive (no NaN among them). *)
Hypothesis float_lt_asym : ∀ a b, float_lt a b = true → float_lt b a = false.
Hypothesis float_lt_incomparable :
  ∀ a b c, float_lt a b = false → float_lt b c = false → float_lt a c = false.

Lemma sortByMatching_strict (d1 d2 : Z * float) :
  sortByMatching d1 d2 = true → sortByMatching d2 d1 = false.
Proof. unfold sortByMatching. apply float_lt_asym. Qed.

Lemma sortByMatching_unordered (d1 d2 d3 : Z * float) :
  sortByMatching d1 d2 = false → sortByMatching d2 d3 = false →
  sortByMatching d1 d3 = false.
Proof. unfold sortByMatching. apply float_lt_incomparable. Qed.

(** The [std::sort] of libstdc++, with the proofs that it meets the
    contract on [sortByMatching]. *)
Definition libstdcxx : StdSort (Z * float) sortByMatching :=
  {| std_sort := gnu_sort sortByMatching;
     std_sort_perm := gnu_sort_perm sortByMatching;
     std_sort_sorted :=
       gnu_sort_sorted sortByMatching sortByMatching_strict
                       sortByMatching_unordered |}.


End LibstdcxxRanking.

(** ** [std::sort] on the toy toolkit *)

Module ToySort.
Import Toy.

Lemma sortByMatching_asym (a b : Z * float) :
  sortByMatching a b = true → sortByMatching b a = false.
Proof.
  unfold sortByMatching; simpl.
  rewrite negb_true_iff, negb_false_iff, QArith_base.Qle_bool_iff.
  intros H. apply QArith_base.Qlt_le_weak, QArith_base.Qnot_le_lt.
  intros Hle. apply QArith_base.Qle_bool_iff in Hle. congruence.
Qed.

Lemma sortByMatching_incomparable (a b c : Z * float) :
  sortByMatching a b = false → sortByMatching b c = false →
  sortByMatching a c = false.
Proof.
  unfold sortByMatching; simpl.
  rewrite !negb_false_iff, !QArith_base.Qle_bool_iff.
  intros H1 H2. by eapply QArith_base.Qle_trans.
Qed.

Lemma float_lt_asym (a b : float) :
  float_lt a b = true → float_lt b a = false.
Proof. apply (sortByMatching_asym (0, a) (0, b)). Qed.

Lemma float_lt_incomparable (a b c : float) :
  float_lt a b = false → float_lt b c = false → float_lt a c = false.
Proof. apply (sortByMatching_incomparable (0, a) (0, b) (0, c)). Qed.

(** The [std::sort] of libstdc++ on the toy scores. *)
Definition gnu : StdSort (Z * float) sortByMatching :=
  libstdcxx float_lt_asym float_lt_incomparable.

(** A [std::sort] that keeps ties in their original order. *)
Definition keeping : StdSort (Z * float) sortByMatching :=
  {| std_sort := sort_keeping_ties sortByMatching;
     std_sort_perm := sort_keeping_ties_perm sortByMatching;
     std_sort_sorted :=
       sort_keeping_ties_sorted sortByMatching sortByMatching_asym
                                sortByMatching_incomparable |}.

End ToySort.

(** ** The geometry verifier and the candidate loop *)

Section Facts.
Context `{TK : Toolkit} (sorter : StdSort (Z * float) sortByMatching).
Implicit Types (lc : LoopClosure) (w : World) (s : Cursor).

Lemma compute_missing lc w im path name0 trans0 :
  files w !! path = None →
  compute lc w im path name0 trans0 =
  {| v_valid := false; v_lc_name := name0; v_matches := 0; v_inliers := 0;
     v_trans := trans0; v_trace := [FsExists path] |}.
Proof. intros H. unfold compute. by rewrite H. Qed.

(** The incoming name and transform do not influence the verdict. *)
Lemma compute_verdict lc w im path name0 trans0 name1 trans1 :
  let a := compute lc w im path name0 trans0 in
  let b := compute lc w im path name1 trans1 in
  v_valid a = v_valid b ∧ v_matches a = v_matches b ∧
  v_inliers a = v_inliers b ∧ v_trace a = v_trace b.
Proof.
  simpl. unfold compute.
  destruct (files w !! path) as [f|]; [|done].
  destruct (yml_fields f) as [[[name kp] desc] p3d].
  destruct (_ <? _); [done|].
  destruct p3d; simpl.
  - destruct (findFundamentalMat _ _ _). destruct (float_lt _ _); [done|].
    by destruct (_ <? _).
  - destruct (solvePnPRansac _ _ _ _) as [[??]?]. by destruct (_ <? _).
Qed.

Lemma compute_valid lc w path name0 trans0 idx :
  path = record_file (params_ lc) idx →
  v_valid (compute lc w (img_ lc) path name0 trans0) = verifies lc w idx.
Proof. intros ->. apply compute_verdict. Qed.

Lemma compute_exists_calls lc w im path name0 trans0 :
  exists_calls (v_trace (compute lc w im path name0 trans0)) = [path].
Proof.
  unfold compute.
  destruct (files w !! path) as [f|]; [|done].
  destruct (yml_fields f) as [[[name kp] desc] p3d].
  assert (exists_calls (FsExists path ::
            match f with Unreadable => [RosError open_error] | _ => [] end)
          = [path]) as Htr by (by destruct f).
  destruct (_ <? _); [done|].
  destruct p3d; simpl.
  - destruct (findFundamentalMat _ _ _). destruct (float_lt _ _); [done|].
    by destruct (_ <? _).
  - destruct (solvePnPRansac _ _ _ _) as [[??]?]. by destruct (_ <? _).
Qed.

Lemma exists_calls_app (a b : list Event) :
  exists_calls (a ++ b) = exists_calls a ++ exists_calls b.
Proof. apply omap_app. Qed.

(** *** One pass of the loop, case by case *)

Lemma loop_body_exhausted lc w m s :
  m !! best_m s = None →
  loop_body lc w m s =
  (Break, {| best_m := 0; valid := valid s; lc_name := lc_name s;
             matches := matches s; inliers := inliers s; trans := trans s;
             trace := trace s |}).
Proof. intros H. unfold loop_body. by rewrite H. Qed.

Lemma loop_body_rejected lc w m s cand :
  m !! best_m s = Some cand →
  verifies lc w cand.1 = false →
  let r := compute lc w (img_ lc) (record_file (params_ lc) cand.1)
                   (lc_name s) (trans s) in
  loop_body lc w m s =
  (Continue, {| best_m := S (best_m s); valid := false;
                lc_name := v_lc_name r; matches := v_matches r;
                inliers := v_inliers r; trans := v_trans r;
                trace := trace s ++ v_trace r |}).
Proof.
  intros Hm Hv. simpl. unfold loop_body. rewrite Hm.
  rewrite (compute_valid _ _ _ _ _ cand.1), Hv by done. done.
Qed.

Lemma loop_body_accepted lc w m s cand :
  m !! best_m s = Some cand →
  verifies lc w cand.1 = true →
  validate (params_ lc) = false →
  let r := compute lc w (img_ lc) (record_file (params_ lc) cand.1)
                   (lc_name s) (trans s) in
  loop_body lc w m s =
  (Break, {| best_m := best_m s; valid := true;
             lc_name := v_lc_name r; matches := v_matches r;
             inliers := v_inliers r; trans := v_trans r;
             trace := trace s ++ v_trace r |}).
Proof.
  intros Hm Hv Hval. simpl. unfold loop_body. rewrite Hm, Hval.
  rewrite (compute_valid _ _ _ _ _ cand.1), Hv by done. done.
Qed.

Lemma loop_body_continue lc w m s s' :
  loop_body lc w m s = (Continue, s') →
  best_m s' = S (best_m s) ∧ valid s' = false.
Proof.
  unfold loop_body. destruct (m !! best_m s) as [cand|]; [|done].
  destruct (v_valid (compute _ _ _ (record_file _ cand.1) _ _)) eqn:Hv;
    destruct (validate (params_ lc)); simpl; try (by intros [= <-]).
  destruct (v_valid (compute _ _ _ (record_file _ (cand.1 - 1)) _ _));
    [done|].
  destruct (v_valid (compute _ _ _ (record_file _ (cand.1 + 1)) _ _));
    [done|].
  by intros [= <-].
Qed.

(** The bound that [getLoopClosure] passes is enough: more passes change
    nothing, every pass that continues having advanced [best_m]. *)
Lemma candidate_loop_enough_fuel fuel extra lc w m s :
  (Z.to_nat (n_candidates (params_ lc)) - best_m s ≤ fuel)%nat →
  candidate_loop (fuel + extra) lc w m s = candidate_loop fuel lc w m s.
Proof.
  revert s. induction fuel as [|fuel IH]; intros s Hfuel.
  - destruct extra as [|extra]; [done|]. simpl.
    destruct (_ <? _) eqn:Hlt; [|done]. apply Z.ltb_lt in Hlt. lia.
  - simpl. destruct (_ <? _) eqn:Hlt; [|done].
    destruct (loop_body lc w m s) as [[] s'] eqn:Hbody; [done|].
    apply loop_body_continue in Hbody as [Hb _].
    apply IH. lia.
Qed.

Corollary final_cursor_fuel extra lc w :
  candidate_loop (Z.to_nat (n_candidates (params_ lc)) + extra)
                 (set_hash_table lc (appended lc)) w (candidates sorter lc)
                 cursor0
  = final_cursor sorter lc w.
Proof. apply candidate_loop_enough_fuel. simpl. lia. Qed.

(** What an accepting run of the loop leaves in the cursor. *)
Lemma candidate_loop_accepts fuel lc w m s :
  valid s = false →
  valid (candidate_loop fuel lc w m s) = true →
  ∃ cand name_in trans_in,
    m !! best_m (candidate_loop fuel lc w m s) = Some cand ∧
    let r := compute lc w (img_ lc) (record_file (params_ lc) cand.1)
                     name_in trans_in in
    v_valid r = true ∧
    lc_name (candidate_loop fuel lc w m s) = v_lc_name r ∧
    trans (candidate_loop fuel lc w m s) = v_trans r ∧
    (validate (params_ lc) = true →
     verifies lc w (cand.1 - 1) || verifies lc w (cand.1 + 1) = true).
Proof.
  revert s. induction fuel as [|fuel IH]; intros s Hs; simpl.
  { congruence. }
  destruct (_ <? _); [|congruence].
  destruct (loop_body lc w m s) as [[] s'] eqn:Hbody; cycle 1.
  { apply loop_body_continue in Hbody as [_ Hv]. by apply IH. }
  revert Hbody. unfold loop_body.
  destruct (m !! best_m s) as [cand|] eqn:Hm.
  2:{ intros [= <-]. simpl. congruence. }
  destruct (v_valid (compute _ _ _ (record_file _ cand.1) _ _)) eqn:Hv;
    destruct (validate (params_ lc)) eqn:Hval; simpl; try done.
  - destruct (v_valid (compute _ _ _ (record_file _ (cand.1 - 1)) _ _))
      eqn:Hprev.
    + intros [= <-] _. simpl. exists cand, (lc_name s), (trans s).
      repeat split; try done. intros _.
      erewrite compute_valid in Hprev by done. by rewrite Hprev.
    + destruct (v_valid (compute _ _ _ (record_file _ (cand.1 + 1)) _ _))
        eqn:Hnext; [|done].
      intros [= <-] _. simpl. exists cand, (lc_name s), (trans s).
      repeat split; try done. intros _.
      erewrite compute_valid in Hnext by done. rewrite Hnext.
      apply orb_true_r.
  - intros [= <-] _. simpl. exists cand, (lc_name s), (trans s).
    repeat split; done.
Qed.

(** *** The transform under mono verification *)

Lemma compute_mono_trans lc w im path name0 trans0 :
  (∀ f, files w !! path = Some f → mono_file f = true) →
  v_trans (compute lc w im path name0 trans0) = trans0.
Proof.
  intros Hmono. unfold compute.
  destruct (files w !! path) as [f|] eqn:Hf; [|done].
  specialize (Hmono f eq_refl).
  destruct f as [name kp desc [|p p3d]|]; simpl; [|done|].
  - destruct (_ <? _); [done|].
    destruct (findFundamentalMat _ _ _). destruct (float_lt _ _); [done|].
    by destruct (_ <? _).
  - destruct (_ <? _); [done|].
    destruct (findFundamentalMat _ _ _). destruct (float_lt _ _); [done|].
    by destruct (_ <? _).
Qed.

Lemma loop_body_mono_trans lc w m s :
  mono_world w → trans (loop_body lc w m s).2 = trans s.
Proof.
  intros Hmono. unfold loop_body.
  destruct (m !! best_m s) as [cand|]; [|done].
  assert (∀ path n t, v_trans (compute lc w (img_ lc) path n t) = t) as Ht.
  { intros. apply compute_mono_trans. intros. by eapply Hmono. }
  destruct (v_valid (compute _ _ _ (record_file _ cand.1) _ _));
    destruct (validate (params_ lc)); simpl; try apply Ht.
  destruct (v_valid (compute _ _ _ (record_file _ (cand.1 - 1)) _ _));
    simpl; [apply Ht|].
  destruct (v_valid (compute _ _ _ (record_file _ (cand.1 + 1)) _ _));
    simpl; apply Ht.
Qed.

Lemma candidate_loop_mono_trans fuel lc w m s :
  mono_world w → trans (candidate_loop fuel lc w m s) = trans s.
Proof.
  intros Hmono. revert s. induction fuel as [|fuel IH]; intros s; [done|].
  simpl. destruct (_ <? _); [|done].
  pose proof (loop_body_mono_trans lc w m s Hmono) as Hb.
  destruct (loop_body lc w m s) as [[] s']; simpl in Hb; [done|].
  by rewrite IH.
Qed.

(** *** The three ways through [getLoopClosure] *)

Lemma getLoopClosure_bootstrap lc w i0 n0 t0 :
  hash_isInitialized (hash_ lc) = false →
  getLoopClosure sorter lc w i0 n0 t0 =
  {| c_valid := false; c_lc_img_idx := i0; c_lc_name := n0; c_trans := t0;
     c_self := set_hash lc (hash_init (hash_ lc) (img_getDesc (img_ lc)) true);
     c_trace := [] |}.
Proof. intros H. unfold getLoopClosure. by rewrite H. Qed.

Lemma getLoopClosure_few lc w i0 n0 t0 :
  hash_isInitialized (hash_ lc) = true →
  reaches_loop lc = false →
  getLoopClosure sorter lc w i0 n0 t0 =
  {| c_valid := false; c_lc_img_idx := i0; c_lc_name := n0; c_trans := t0;
     c_self := set_hash_table lc (appended lc); c_trace := [] |}.
Proof.
  unfold reaches_loop, getLoopClosure, appended. intros -> H. simpl in *.
  apply negb_false_iff in H. by rewrite H.
Qed.

Lemma getLoopClosure_loop lc w i0 n0 t0 :
  reaches_loop lc = true →
  getLoopClosure sorter lc w i0 n0 t0 =
  let s := final_cursor sorter lc w in
  match (if valid s then candidates sorter lc !! best_m s else None) with
  | Some cand =>
      {| c_valid := valid s; c_lc_img_idx := cand.1; c_lc_name := lc_name s;
         c_trans := trans s; c_self := set_hash_table lc (appended lc);
         c_trace := trace s |}
  | None =>
      {| c_valid := valid s; c_lc_img_idx := -1; c_lc_name := EmptyString;
         c_trans := trans s; c_self := set_hash_table lc (appended lc);
         c_trace := trace s |}
  end.
Proof.
  unfold reaches_loop, getLoopClosure, appended.
  intros [-> H]%andb_true_iff.
  simpl in *. apply negb_true_iff in H. by rewrite H.
Qed.

Lemma getLoopClosure_self lc w i0 n0 t0 :
  c_self (getLoopClosure sorter lc w i0 n0 t0) =
  if hash_isInitialized (hash_ lc)
  then set_hash_table lc (appended lc)
  else set_hash lc (hash_init (hash_ lc) (img_getDesc (img_ lc)) true).
Proof.
  destruct (hash_isInitialized (hash_ lc)) eqn:Hinit.
  - destruct (reaches_loop lc) eqn:Hreach.
    + rewrite getLoopClosure_loop by done. simpl.
      by destruct (if valid _ then _ else _).
    + by rewrite getLoopClosure_few.
  - by rewrite getLoopClosure_bootstrap.
Qed.

Lemma ingest_frame (st : LoopClosure * World) (o : Observation) :
  params_ (ingest st o).1 = params_ st.1 ∧
  hash_ (ingest st o).1 = hash_ st.1 ∧
  hash_table_ (ingest st o).1 = hash_table_ st.1 ∧
  img_idx_ (ingest st o).1 = img_idx_ st.1 + 1.
Proof. by destruct o. Qed.

(** *** The spacing of the hash table along a session *)

Lemma spaced_init lc now created : spaced (init lc now created).1.1.
Proof. intros i e. simpl. by rewrite lookup_nil. Qed.

Lemma step_self (st : LoopClosure * World) (o : Observation) i0 n0 t0 :
  c_self (query sorter st o i0 n0 t0) = (step sorter st o).1.
Proof. unfold step, query. simpl. by rewrite !getLoopClosure_self. Qed.

Lemma spaced_step (st : LoopClosure * World) (o : Observation) :
  spaced st.1 → spaced (step sorter st o).1.
Proof.
  intros Hsp. unfold step, query. simpl. rewrite getLoopClosure_self.
  destruct (ingest_frame st o) as (_ & _ & Ht & Hi).
  destruct (hash_isInitialized _); intros i e; simpl; unfold appended;
    rewrite ?Ht, ?Hi.
  - rewrite length_app. simpl. intros Hl.
    apply lookup_app_Some in Hl as [Hl | [Hge Hl]].
    + apply Hsp in Hl. lia.
    + apply list_lookup_singleton_Some in Hl as [Hi0 <-]. simpl. lia.
  - intros Hl. apply Hsp in Hl. lia.
Qed.

Lemma spaced_session (st : LoopClosure * World) history :
  spaced st.1 → spaced (session sorter st history).1.
Proof.
  unfold session. revert st.
  induction history as [|o history IH]; intros st Hsp; [done|].
  simpl. apply IH. by apply spaced_step.
Qed.

Lemma session_params (st : LoopClosure * World) history :
  params_ (session sorter st history).1 = params_ st.1.
Proof.
  unfold session. revert st.
  induction history as [|o history IH]; intros st; [done|].
  simpl. rewrite IH. unfold step, query. simpl.
  rewrite getLoopClosure_self.
  destruct (ingest_frame st o) as (Hp & _).
  by destruct (hash_isInitialized _).
Qed.

(** The entries that are scored leave out the last [min_neighbour] ones. *)
Lemma scored_count_bound (len : nat) (min_nb : Z) (i : nat) :
  is_int min_nb →
  to_size_t min_nb < Z.of_nat len →
  (i < scored_count len min_nb)%nat →
  Z.of_nat i + min_nb < Z.of_nat len.
Proof.
  unfold is_int, scored_count, to_size_t. intros [Hlo Hhi] Hlt Hi.
  assert (min_nb mod 2 ^ 64 = min_nb ∨ min_nb mod 2 ^ 64 = min_nb + 2 ^ 64)
    as Hmod.
  { destruct (decide (0 ≤ min_nb)).
    - left. apply Z.mod_small. lia.
    - right. rewrite <- (Z.mod_add min_nb 1 (2 ^ 64)) by lia.
      apply Z.mod_small. lia. }
  assert ((Z.of_nat len - min_nb mod 2 ^ 64) mod 2 ^ 64
          ≤ Z.of_nat len - min_nb mod 2 ^ 64) as Hle.
  { apply Z.mod_le; lia. }
  lia.
Qed.

(** Every candidate is a scored entry of the table. *)
Lemma candidates_eligible lc (cand : Z * float) :
  cand ∈ candidates sorter lc →
  ∃ i e, appended lc !! i = Some e ∧ cand.1 = e.1 ∧
         (i < scored_count (length (appended lc))
                           (min_neighbour (params_ lc)))%nat.
Proof.
  unfold candidates, ranking. rewrite <- (std_sort_perm sorter).
  unfold hash_matchings. intros (e & -> & He)%list_elem_of_fmap.
  apply list_elem_of_lookup in He as [i Hi].
  apply lookup_take_Some in Hi as [Hi Hlt]. by exists i, e.
Qed.

(** A reported index is the index of a scored entry, whatever the state
    in which [getLoopClosure] is called. *)
Lemma reported_is_eligible lc w i0 n0 t0 :
  is_int (min_neighbour (params_ lc)) →
  c_valid (getLoopClosure sorter lc w i0 n0 t0) = true →
  ∃ i h,
    appended lc !! i = Some (c_lc_img_idx (getLoopClosure sorter lc w i0 n0 t0), h) ∧
    Z.of_nat i + min_neighbour (params_ lc) < Z.of_nat (length (appended lc)).
Proof.
  intros Hint.
  destruct (hash_isInitialized (hash_ lc)) eqn:Hinit;
    [|by rewrite getLoopClosure_bootstrap].
  destruct (reaches_loop lc) eqn:Hreach; [|by rewrite getLoopClosure_few].
  rewrite getLoopClosure_loop by done. simpl.
  destruct (valid (final_cursor sorter lc w)) eqn:Hv.
  2:{ simpl. congruence. }
  destruct (candidate_loop_accepts _ _ _ _ cursor0 eq_refl Hv)
    as (cand & _ & _ & Hcand & _).
  fold (final_cursor sorter lc w) in Hcand. rewrite Hcand. simpl. intros _.
  apply list_elem_of_lookup_2, candidates_eligible in Hcand
    as (i & [idx h] & Hi & -> & Hlt).
  exists i, h. split; [done|].
  apply scored_count_bound in Hlt; [done..|].
  unfold reaches_loop in Hreach. rewrite Hinit in Hreach.
  simpl in Hreach. apply negb_true_iff, Z.leb_gt in Hreach. lia.
Qed.

(** *** The records of a session *)

Lemma append_length (s t : string) :
  String.length (s +:+ t) = (String.length s + String.length t)%nat.
Proof. induction s as [|c s IH]; simpl; [done|]. by rewrite IH. Qed.

Lemma append_cancel_r (t s1 s2 : string) : s1 +:+ t = s2 +:+ t → s1 = s2.
Proof.
  intros Heq.
  assert (String.length s1 = String.length s2) as Hlen.
  { apply (f_equal String.length) in Heq. rewrite !append_length in Heq. lia. }
  revert s2 Heq Hlen.
  induction s1 as [|c s1 IH]; intros [|c2 s2]; simpl; try done.
  intros [= -> Heq] [= Hlen]. f_equal. by apply IH.
Qed.

Lemma record_file_inj (p : Params) (i j : Z) :
  record_file p i = record_file p j → i = j.
Proof.
  unfold record_file. intros H.
  apply (inj (String.app _)) in H. apply (inj (String.app _)) in H.
  apply append_cancel_r in H. by apply (inj pretty) in H.
Qed.

Lemma indexed_init lc now created : indexed (init lc now created).1.
Proof.
  split; [done|]. intros path. simpl. rewrite lookup_empty.
  by intros [? ?].
Qed.

Lemma indexed_ingest (st : LoopClosure * World) (o : Observation) :
  indexed st → indexed (ingest st o).
Proof.
  intros [Hpos Hfiles].
  assert (∀ im f, indexed (stored st.1 st.2 im f)) as Hst.
  { intros im f. split; simpl; [lia|]. intros path.
    unfold write_file. destruct (dir_ok st.2); simpl.
    - destruct (decide (record_file (params_ st.1) (img_idx_ st.1) = path))
        as [<-|Hne].
      + intros _. exists (img_idx_ st.1). split; [lia|done].
      + rewrite lookup_insert_ne by done. intros Hs.
        destruct (Hfiles _ Hs) as (i & Hi & ->). exists i. split; [lia|done].
    - intros Hs. destruct (Hfiles _ Hs) as (i & Hi & ->).
      exists i. split; [lia|done]. }
  destruct o; apply Hst.
Qed.

Lemma indexed_step (st : LoopClosure * World) (o : Observation) :
  indexed st → indexed (step sorter st o).
Proof.
  intros H%(indexed_ingest _ o). unfold step, query, indexed in *. simpl.
  rewrite getLoopClosure_self. by destruct (hash_isInitialized _).
Qed.

Lemma indexed_session (st : LoopClosure * World) history :
  indexed st → indexed (session sorter st history).
Proof.
  unfold session. revert st.
  induction history as [|o history IH]; intros st H; [done|].
  simpl. apply IH. by apply indexed_step.
Qed.

(** No record of a negative index is ever written. *)
Lemma no_record_below_zero (st : LoopClosure * World) (idx : Z) :
  indexed st → idx < 0 →
  files st.2 !! record_file (params_ st.1) idx = None.
Proof.
  intros [_ Hfiles] Hneg. apply eq_None_not_Some. intros Hs.
  destruct (Hfiles _ Hs) as (i & Hi & Heq).
  apply record_file_inj in Heq. lia.
Qed.

End Facts.


(** ** The candidate loop of [getLoopClosure] *)

Section Orchestrator.
Context `{TK : Toolkit} (sorter : StdSort (Z * float) sortByMatching).
Implicit Types (lc : LoopClosure) (w : World) (s : Cursor).

(** C4. The bootstrap step: when the hash engine is not yet initialized, the
    query that follows the ingestion of an observation returns false, leaves
    the hash engine initialized from that observation's descriptors, appends
    nothing to the hash table and verifies nothing, whatever the
    parameters. *)
Theorem bootstrap_no_closure (st : LoopClosure * World) (o : Observation)
    (lc_img_idx0 : Z) (lc_name0 : string) (trans0 : Transform) :
  hash_isInitialized (hash_ st.1) = false →
  let r := query sorter st o lc_img_idx0 lc_name0 trans0 in
  c_valid r = false ∧
  hash_ (c_self r) =
    hash_init (hash_ st.1) (img_getDesc (img_ (ingest st o).1)) true ∧
  hash_table_ (c_self r) = hash_table_ st.1 ∧
  c_trace r = [].
Proof.
  intros Hinit. unfold query.
  destruct (ingest_frame st o) as (_ & Hh & Ht & _).
  rewrite getLoopClosure_bootstrap by congruence. simpl.
  by rewrite Hh, Ht.
Qed.

(** C5. Too few neighbours: with the hash engine initialized, if the hash
    table, once the entry of the current observation is appended, has at most
    [min_neighbour] entries, [getLoopClosure] returns false and no candidate
    is verified (no record file is looked up). *)
Theorem too_few_neighbours lc w (lc_img_idx0 : Z) (lc_name0 : string)
    (trans0 : Transform) :
  hash_isInitialized (hash_ lc) = true →
  is_int (min_neighbour (params_ lc)) →
  let r := getLoopClosure sorter lc w lc_img_idx0 lc_name0 trans0 in
  Z.of_nat (length (hash_table_ (c_self r))) ≤ min_neighbour (params_ lc) →
  c_valid r = false ∧ c_trace r = [] ∧
  hash_table_ (c_self r) =
    hash_table_ lc ++
    [(img_idx_ lc - 1, hash_getHash (hash_ lc) (img_getDesc (img_ lc)))].
Proof.
  intros Hinit [Hlo Hhi]. simpl.
  rewrite getLoopClosure_self, Hinit. simpl. intros Hsize.
  rewrite getLoopClosure_few; [done..|].
  unfold reaches_loop. rewrite Hinit. simpl.
  apply negb_false_iff, Z.leb_le.
  unfold to_size_t. fold (appended lc). rewrite Z.mod_small; lia.
Qed.

(** C1 (as amended). The temporal gap: along every history of
    observations, each ingested and queried in turn from a freshly
    initialized session, a reported loop closure is the index of a
    hash-table entry older than the last [min_neighbour] entries, the entry
    of the current observation counted among them, and it lies at least
    [min_neighbour] below the index of the current observation; the gap can
    be [min_neighbour] itself. *)
Theorem temporal_gap lc0 (now : Z) (created : bool)
    (history : list Observation) (o : Observation)
    (lc_img_idx0 : Z) (lc_name0 : string) (trans0 : Transform) :
  is_int (min_neighbour (params_ lc0)) →
  let st := session sorter (init lc0 now created).1 history in
  let r := query sorter st o lc_img_idx0 lc_name0 trans0 in
  c_valid r = true →
  (∃ i h, hash_table_ (c_self r) !! i = Some (c_lc_img_idx r, h) ∧
          Z.of_nat i + min_neighbour (params_ lc0)
          < Z.of_nat (length (hash_table_ (c_self r)))) ∧
  c_lc_img_idx r + min_neighbour (params_ lc0) ≤ img_idx_ (c_self r) - 1.
Proof.
  intros Hint st r Hvalid.
  assert (spaced (c_self r)) as Hsp.
  { unfold r. rewrite step_self. apply spaced_step, spaced_session, spaced_init. }
  revert Hvalid Hsp. unfold r, query. simpl.
  set (lc := (ingest st o).1). set (w := (ingest st o).2).
  assert (min_neighbour (params_ lc) = min_neighbour (params_ lc0)) as Hmn.
  { unfold lc. destruct (ingest_frame st o) as (-> & _). unfold st.
    by rewrite session_params. }
  intros Hvalid.
  assert (hash_isInitialized (hash_ lc) = true) as Hinit.
  { destruct (hash_isInitialized (hash_ lc)) eqn:Hinit; [done|].
    by rewrite getLoopClosure_bootstrap in Hvalid. }
  rewrite getLoopClosure_self, Hinit. simpl. intros Hsp.
  rewrite <- Hmn in Hint |- *.
  destruct (reported_is_eligible _ _ _ _ _ _ Hint Hvalid) as (i & h & Hi & Hlt).
  split; [by exists i, h|].
  apply Hsp in Hi. simpl in Hi. lia.
Qed.

(** C2 (as amended). A candidate whose record file does not exist is an
    ordinary rejection: [compute] returns false with no matches and no
    inliers, leaves the name and the transform as they were and raises no
    error, and the candidate loop goes on with the next candidate. *)
Theorem missing_record_is_rejected lc w (m : list (Z * float)) s
    (cand : Z * float) :
  m !! best_m s = Some cand →
  files w !! record_file (params_ lc) cand.1 = None →
  compute lc w (img_ lc) (record_file (params_ lc) cand.1)
          (lc_name s) (trans s) =
    {| v_valid := false; v_lc_name := lc_name s; v_matches := 0;
       v_inliers := 0; v_trans := trans s;
       v_trace := [FsExists (record_file (params_ lc) cand.1)] |} ∧
  loop_body lc w m s =
    (Continue,
     {| best_m := S (best_m s); valid := false; lc_name := lc_name s;
        matches := 0; inliers := 0; trans := trans s;
        trace := trace s ++ [FsExists (record_file (params_ lc) cand.1)] |}).
Proof.
  intros Hm Hfile. split; [by apply compute_missing|].
  rewrite (loop_body_rejected _ _ _ _ cand Hm).
  - by rewrite compute_missing.
  - unfold verifies. by rewrite compute_missing.
Qed.

(** C3. With [validate] enabled, a candidate that passes the primary
    verification while the cross-checks against index-1 and index+1 both
    fail is not accepted: the pass ends with [valid] false and [best_m]
    advanced to the next ranked candidate, after exactly three record
    look-ups (the candidate, its predecessor, its successor), and the loop
    goes on from there. *)
Theorem failed_cross_checks_reject lc w (m : list (Z * float)) s
    (cand : Z * float) (fuel : nat) :
  validate (params_ lc) = true →
  Z.of_nat (best_m s) < n_candidates (params_ lc) →
  m !! best_m s = Some cand →
  verifies lc w cand.1 = true →
  verifies lc w (cand.1 - 1) = false →
  verifies lc w (cand.1 + 1) = false →
  ∃ s', loop_body lc w m s = (Continue, s') ∧
        valid s' = false ∧ best_m s' = S (best_m s) ∧
        exists_calls (trace s') =
          exists_calls (trace s) ++
          [record_file (params_ lc) cand.1;
           record_file (params_ lc) (cand.1 - 1);
           record_file (params_ lc) (cand.1 + 1)] ∧
        candidate_loop (S fuel) lc w m s = candidate_loop fuel lc w m s'.
Proof.
  intros Hval Hlt Hm Hv Hprev Hnext.
  assert (∃ s', loop_body lc w m s = (Continue, s') ∧
                exists_calls (trace s') =
                  exists_calls (trace s) ++
                  [record_file (params_ lc) cand.1;
                   record_file (params_ lc) (cand.1 - 1);
                   record_file (params_ lc) (cand.1 + 1)])
    as (s' & Hbody & Htrace).
  { unfold loop_body. rewrite Hm, Hval.
    rewrite (compute_valid _ _ _ _ _ cand.1), Hv by done. simpl.
    rewrite (compute_valid _ _ _ _ _ (cand.1 - 1)), Hprev by done.
    rewrite (compute_valid _ _ _ _ _ (cand.1 + 1)), Hnext by done.
    eexists. split; [done|]. simpl.
    by rewrite !exists_calls_app, !compute_exists_calls. }
  exists s'. destruct (loop_body_continue _ _ _ _ _ Hbody) as [Hb Hvs].
  repeat split; try done.
  simpl. apply Z.ltb_lt in Hlt. by rewrite Hlt, Hbody.
Qed.

(** C9. A mono verification leaves the transform alone: when the record
    that [compute] reads has an empty 3-D point list (or cannot be read, or
    does not exist), the transform it returns is the one it was given,
    whether it accepts or rejects; hence, over a working directory of mono
    records, the candidate loop never changes the transform and a query that
    reaches the loop returns the identity set before it. *)
Theorem mono_keeps_transform lc w (im : Image) (path : string)
    (name0 : string) (trans0 : Transform) :
  (∀ f, files w !! path = Some f → mono_file f = true) →
  v_trans (compute lc w im path name0 trans0) = trans0 ∧
  (mono_world w →
   (∀ fuel m s, trans (candidate_loop fuel lc w m s) = trans s) ∧
   (∀ i0 n0 t0, reaches_loop lc = true →
      c_trans (getLoopClosure sorter lc w i0 n0 t0) = tf_identity)).
Proof.
  intros Hmono. split; [by apply compute_mono_trans|].
  intros Hw. split.
  - intros. by apply candidate_loop_mono_trans.
  - intros i0 n0 t0 Hreach. rewrite getLoopClosure_loop by done. simpl.
    assert (trans (final_cursor sorter lc w) = tf_identity) as Ht.
    { unfold final_cursor. by rewrite candidate_loop_mono_trans. }
    by destruct (if valid _ then _ else _).
Qed.

(** C7 (as amended). The predecessor index is not clamped: for a candidate
    of index 0 that passes the primary verification with [validate] enabled,
    the predecessor cross-check looks up the record of index -1; that record
    not existing, the cross-check fails, the record of index 1 is looked up
    next, and the candidate is accepted exactly when this successor
    cross-check succeeds. *)
Theorem predecessor_of_zero lc w (m : list (Z * float)) s
    (cand : Z * float) :
  validate (params_ lc) = true →
  m !! best_m s = Some cand →
  cand.1 = 0 →
  verifies lc w 0 = true →
  files w !! record_file (params_ lc) (-1) = None →
  ∃ s', loop_body lc w m s =
          (if verifies lc w 1 then Break else Continue, s') ∧
        valid s' = verifies lc w 1 ∧
        exists_calls (trace s') =
          exists_calls (trace s) ++
          [record_file (params_ lc) 0; record_file (params_ lc) (-1);
           record_file (params_ lc) 1].
Proof.
  intros Hval Hm Hc Hv Hfile. destruct cand as [idx score].
  simpl in Hc. subst idx.
  unfold loop_body. rewrite Hm, Hval. simpl.
  rewrite (compute_valid _ _ _ _ _ 0), Hv by done. simpl.
  rewrite (compute_missing _ _ _ _ _ _ Hfile). simpl.
  rewrite (compute_valid _ _ _ _ _ 1) by done.
  destruct (verifies lc w 1); eexists; (split; [done|]); simpl.
  all: split; [done|].
  all: rewrite !exists_calls_app, !compute_exists_calls; simpl.
  all: by rewrite compute_exists_calls.
Qed.

End Orchestrator.

(** ** Runs of the model on the toy toolkit *)

Module ToyRuns.
Import Toy ToySort.
Import QArith_base(Qmake).

(** The session once [again] is ingested, after a history. *)
Definition revisited (initialized val : bool) (min_nb : Z)
    (history : list Observation) : LoopClosure * World :=
  ingest (session keeping (started initialized (params min_nb 2 val)) history)
         again.

Lemma temporal_gap_witness :
  is_int 2 ∧
  let st := session keeping (init (object false (params 2 2 true)) 0 true).1
                    revisit in
  let r := query keeping st again 7 "stale" 5 in
  c_valid r = true ∧
  ((∃ i h, hash_table_ (c_self r) !! i = Some (c_lc_img_idx r, h) ∧
           Z.of_nat i + 2 < Z.of_nat (length (hash_table_ (c_self r)))) ∧
   c_lc_img_idx r + 2 ≤ img_idx_ (c_self r) - 1).
Proof.
  assert (is_int 2) as Hint by (unfold is_int; lia).
  split; [exact Hint|]. intros st r.
  assert (c_valid r = true) as Hv by (vm_compute; reflexivity).
  split; [exact Hv|].
  exact (temporal_gap keeping (object false (params 2 2 true)) 0 true
                      revisit again 7 "stale" 5 Hint Hv).
Defined.

(** C1, refuted as stated: with [min_neighbour] 1, image 5 closes a loop
    with image 4, the frame next to it; the reported index is within
    [min_neighbour] of the current one. *)
Lemma adjacent_frame_reported :
  let st := session gnu (started false (params 1 2 false)) revisit in
  let r := query gnu st linger 7 "stale" 5 in
  min_neighbour (params_ (c_self r)) = 1 ∧
  c_valid r = true ∧
  img_idx_ (c_self r) - 1 = 5 ∧
  c_lc_img_idx r = 4 ∧
  c_lc_name r = "img4".
Proof. vm_compute. repeat split; reflexivity. Qed.

(** C2, refuted as stated: the record of the best-ranked candidate (index 1)
    is missing from the working directory, and the query neither fails nor
    reports an error; it goes on to the next candidate and returns it. *)
Lemma missing_record_goes_unnoticed :
  let st := revisited false false 2 revisit in
  let w := without "/tmp/ex_0/1.yml" st.2 in
  let r := getLoopClosure keeping st.1 w 7 "stale" 5 in
  (candidates keeping st.1).*1 = [1; 2; 3] ∧
  files w !! record_file (params_ st.1) 1 = None ∧
  c_valid r = true ∧ c_lc_img_idx r = 2 ∧
  c_trace r = [FsExists "/tmp/ex_0/1.yml"; FsExists "/tmp/ex_0/2.yml"] ∧
  ros_errors (c_trace r) = [].
Proof. vm_compute. repeat split; reflexivity. Qed.

Lemma missing_record_is_rejected_witness :
  let st := revisited false false 2 revisit in
  let w := without "/tmp/ex_0/1.yml" st.2 in
  let m := candidates keeping st.1 in
  m !! best_m cursor0 = Some (1, Qmake 0 1) ∧
  files w !! record_file (params_ st.1) 1 = None ∧
  loop_body st.1 w m cursor0 =
    (Continue,
     {| best_m := 1; valid := false; lc_name := EmptyString; matches := 0;
        inliers := 0; trans := 0;
        trace := [FsExists "/tmp/ex_0/1.yml"] |}).
Proof.
  intros st w m.
  assert (m !! best_m cursor0 = Some (1, Qmake 0 1)) as Hm
    by (vm_compute; reflexivity).
  assert (files w !! record_file (params_ st.1) (1, Qmake 0 1).1 = None)
    as Hfile by (vm_compute; reflexivity).
  split; [exact Hm|]. split; [exact Hfile|].
  exact (proj2 (missing_record_is_rejected st.1 w m cursor0 (1, Qmake 0 1)
                                           Hm Hfile)).
Defined.

Lemma failed_cross_checks_reject_witness :
  let st := revisited false true 2 lone_revisit in
  let m := candidates keeping st.1 in
  validate (params_ st.1) = true ∧
  m !! best_m cursor0 = Some (1, Qmake 0 1) ∧
  verifies st.1 st.2 1 = true ∧
  verifies st.1 st.2 0 = false ∧
  verifies st.1 st.2 2 = false ∧
  ∃ s', loop_body st.1 st.2 m cursor0 = (Continue, s') ∧
        valid s' = false ∧ best_m s' = 1%nat ∧
        exists_calls (trace s') =
          ["/tmp/ex_0/1.yml"; "/tmp/ex_0/0.yml"; "/tmp/ex_0/2.yml"] ∧
        candidate_loop 2 st.1 st.2 m cursor0 = candidate_loop 1 st.1 st.2 m s'.
Proof.
  intros st m.
  assert (validate (params_ st.1) = true) as Hval by reflexivity.
  assert (Z.of_nat (best_m cursor0) < n_candidates (params_ st.1)) as Hlt
    by (vm_compute; reflexivity).
  assert (m !! best_m cursor0 = Some (1, Qmake 0 1)) as Hm
    by (vm_compute; reflexivity).
  assert (verifies st.1 st.2 (1, Qmake 0 1).1 = true) as Hv
    by (vm_compute; reflexivity).
  assert (verifies st.1 st.2 ((1, Qmake 0 1).1 - 1) = false) as Hprev
    by (vm_compute; reflexivity).
  assert (verifies st.1 st.2 ((1, Qmake 0 1).1 + 1) = false) as Hnext
    by (vm_compute; reflexivity).
  repeat (split; [assumption|]).
  exact (failed_cross_checks_reject st.1 st.2 m cursor0 (1, Qmake 0 1) 1
                                    Hval Hlt Hm Hv Hprev Hnext).
Defined.

Lemma bootstrap_no_closure_witness :
  let st := started false (params 2 2 false) in
  let o := Mono [1; 2; 3]%nat "img0" in
  hash_isInitialized (hash_ st.1) = false ∧
  let r := query keeping st o 7 "stale" 5 in
  c_valid r = false ∧ hash_ (c_self r) = true ∧
  hash_table_ (c_self r) = [] ∧ c_trace r = [].
Proof.
  intros st o.
  assert (hash_isInitialized (hash_ st.1) = false) as Hinit by reflexivity.
  split; [exact Hinit|].
  exact (bootstrap_no_closure keeping st o 7 "stale" 5 Hinit).
Defined.

Lemma too_few_neighbours_witness :
  let st := revisited false false 5 revisit in
  let r := getLoopClosure keeping st.1 st.2 7 "stale" 5 in
  hash_isInitialized (hash_ st.1) = true ∧
  is_int 5 ∧
  Z.of_nat (length (hash_table_ (c_self r))) ≤ 5 ∧
  c_valid r = false ∧ c_trace r = [] ∧
  hash_table_ (c_self r) = [(1, 33); (2, 34); (3, 41); (4, 61); (5, 33)].
Proof.
  intros st r.
  assert (hash_isInitialized (hash_ st.1) = true) as Hinit
    by (vm_compute; reflexivity).
  assert (is_int (min_neighbour (params_ st.1))) as Hint
    by (change (is_int 5); unfold is_int; lia).
  assert (Z.of_nat (length (hash_table_ (c_self r)))
          ≤ min_neighbour (params_ st.1)) as Hsize
    by (vm_compute; intros H; discriminate H).
  repeat (split; [assumption|]).
  exact (too_few_neighbours keeping st.1 st.2 7 "stale" 5 Hinit Hint Hsize).
Defined.



(** Three candidates, two of them tied: the introsort loop leaves so short
    a range to the final insertion sort, and the tie stays in index
    order. *)
Example few_ties_keep_index_order :
  candidates gnu (revisited false false 2 twins).1
  = [(1, Qmake 0 1); (2, Qmake 0 1); (3, Qmake 8 1)].
Proof. vm_compute. reflexivity. Qed.

(** C7, refuted as stated: the candidate of index 0 verifies against the
    current image, so a cross-check clamped to observation 0 would succeed;
    the code looks up the record of index -1 instead, then that of index 1,
    and rejects the candidate. *)
Lemma predecessor_not_clamped :
  let st := revisited true true 2 early_revisit in
  let r := getLoopClosure keeping st.1 st.2 7 "stale" 5 in
  (candidates keeping st.1).*1 = [0; 1] ∧
  verifies st.1 st.2 0 = true ∧
  c_valid r = false ∧
  exists_calls (c_trace r) =
    ["/tmp/ex_0/0.yml"; "/tmp/ex_0/-1.yml"; "/tmp/ex_0/1.yml";
     "/tmp/ex_0/1.yml"].
Proof. vm_compute. repeat split; reflexivity. Qed.

Lemma predecessor_of_zero_witness :
  let st := revisited true true 2 early_revisit in
  let m := candidates keeping st.1 in
  validate (params_ st.1) = true ∧
  m !! best_m cursor0 = Some (0, Qmake 0 1) ∧
  verifies st.1 st.2 0 = true ∧
  files st.2 !! record_file (params_ st.1) (-1) = None ∧
  ∃ s', loop_body st.1 st.2 m cursor0 = (Continue, s') ∧
        valid s' = false ∧
        exists_calls (trace s') =
          ["/tmp/ex_0/0.yml"; "/tmp/ex_0/-1.yml"; "/tmp/ex_0/1.yml"].
Proof.
  intros st m.
  assert (validate (params_ st.1) = true) as Hval by reflexivity.
  assert (m !! best_m cursor0 = Some (0, Qmake 0 1)) as Hm
    by (vm_compute; reflexivity).
  assert (verifies st.1 st.2 0 = true) as Hv by (vm_compute; reflexivity).
  assert (files st.2 !! record_file (params_ st.1) (-1) = None) as Hfile
    by (vm_compute; reflexivity).
  repeat (split; [assumption|]).
  exact (predecessor_of_zero st.1 st.2 m cursor0 (0, Qmake 0 1)
                             Hval Hm eq_refl Hv Hfile).
Defined.

(** C8, the code at the failing inputs. The caller's variables hold 7,
    "stale" and the transform 5 on entry. The bootstrap query and the query
    with too few neighbours return false and leave all three as they were;
    a query whose only verified candidate is a stereo record that fails both
    cross-checks returns false with index -1 and an empty name, but with the
    pose of the rejected candidate (6) in the transform. *)
Theorem no_closure_outputs_not_reset :
  let bootstrap :=
    query keeping (started false (params 2 2 false))
          (Mono [1; 2; 3]%nat "img0") 7 "stale" 5 in
  let few :=
    getLoopClosure keeping (revisited false false 5 revisit).1
                   (revisited false false 5 revisit).2 7 "stale" 5 in
  let rejected :=
    getLoopClosure keeping (revisited false true 2 lone_stereo).1
                   (revisited false true 2 lone_stereo).2 7 "stale" 5 in
  (c_valid bootstrap, c_lc_img_idx bootstrap, c_lc_name bootstrap,
   c_trans bootstrap) = (false, 7, "stale", 5) ∧
  (c_valid few, c_lc_img_idx few, c_lc_name few, c_trans few)
    = (false, 7, "stale", 5) ∧
  (c_valid rejected, c_lc_img_idx rejected, c_lc_name rejected,
   c_trans rejected) = (false, -1, EmptyString, 6) ∧
  tf_identity = 0.
Proof. vm_compute. repeat split; reflexivity. Qed.

Lemma mono_keeps_transform_witness :
  let st := revisited false true 2 revisit in
  let path := record_file (params_ st.1) 1 in
  (∀ f, files st.2 !! path = Some f → mono_file f = true) ∧
  mono_world st.2 ∧
  reaches_loop st.1 = true ∧
  v_valid (compute st.1 st.2 (img_ st.1) path "stale" 5) = true ∧
  v_trans (compute st.1 st.2 (img_ st.1) path "stale" 5) = 5 ∧
  c_valid (getLoopClosure keeping st.1 st.2 7 "stale" 5) = true ∧
  c_trans (getLoopClosure keeping st.1 st.2 7 "stale" 5) = tf_identity.
Proof.
  intros st path.
  assert (mono_world st.2) as Hworld
    by (unfold mono_world; apply (bool_decide_unpack _); vm_compute; exact I).
  assert (∀ f, files st.2 !! path = Some f → mono_file f = true) as Hmono
    by (intros f; apply Hworld).
  assert (reaches_loop st.1 = true) as Hreach by (vm_compute; reflexivity).
  split; [exact Hmono|]. split; [exact Hworld|]. split; [exact Hreach|].
  split; [vm_compute; reflexivity|].
  destruct (mono_keeps_transform keeping st.1 st.2 (img_ st.1) path
                                 "stale" 5 Hmono) as [Htrans Hloop].
  split; [exact Htrans|]. split; [vm_compute; reflexivity|].
  exact (proj2 (Hloop Hworld) 7 "stale" 5 Hreach).
Defined.

(** The gap of C1 can be exactly [min_neighbour]: with [min_neighbour] 4,
    image 5 closes a loop with image 1. *)
Example gap_of_exactly_min_neighbour :
  let r := getLoopClosure keeping (revisited false false 4 revisit).1
                          (revisited false false 4 revisit).2 7 "stale" 5 in
  c_valid r = true ∧ c_lc_img_idx r = 1 ∧ img_idx_ (c_self r) - 1 = 5.
Proof. vm_compute. repeat split; reflexivity. Qed.

End ToyRuns.

(** * Further properties of the verifier and of the candidate loop *)

Section Verifier.
Context `{TK : Toolkit} (sorter : StdSort (Z * float) sortByMatching).
Implicit Types (lc : LoopClosure) (w : World) (s : Cursor).

(** The loop runs on the object with the table appended; [compute] does not
    look at the table. *)
Lemma compute_table lc t w im path name0 trans0 :
  compute (set_hash_table lc t) w im path name0 trans0
  = compute lc w im path name0 trans0.
Proof. reflexivity. Qed.

Lemma verifies_table lc t w idx :
  verifies (set_hash_table lc t) w idx = verifies lc w idx.
Proof. reflexivity. Qed.

Lemma compute_accepts lc w im path name0 trans0 :
  v_valid (compute lc w im path name0 trans0) = true →
  ∃ f, files w !! path = Some f ∧
       v_lc_name (compute lc w im path name0 trans0) = yml_name f ∧
       min_matches (params_ lc) ≤ v_matches (compute lc w im path name0 trans0) ∧
       min_inliers (params_ lc) ≤ v_inliers (compute lc w im path name0 trans0).
Proof.
  unfold compute, yml_name.
  destruct (files w !! path) as [f|]; [|done].
  destruct (yml_fields f) as [[[name kp] desc] p3d] eqn:Hf. simpl.
  destruct (_ <? _) eqn:Hm; [done|]. apply Z.ltb_ge in Hm.
  destruct p3d; simpl.
  - destruct (findFundamentalMat _ _ _). destruct (float_lt _ _); [done|].
    destruct (_ <? _) eqn:Hi; [done|]. apply Z.ltb_ge in Hi.
    intros _. exists f. by rewrite Hf.
  - destruct (solvePnPRansac _ _ _ _) as [[??]?].
    destruct (_ <? _) eqn:Hi; [done|]. apply Z.ltb_ge in Hi.
    intros _. exists f. by rewrite Hf.
Qed.

Lemma compute_rejects lc w im path name0 trans0 :
  v_valid (compute lc w im path name0 trans0) = false →
  v_trans (compute lc w im path name0 trans0) = trans0.
Proof.
  unfold compute.
  destruct (files w !! path) as [f|]; [|done].
  destruct (yml_fields f) as [[[name kp] desc] p3d]. simpl.
  destruct (_ <? _); [done|].
  destruct p3d; simpl.
  - destruct (findFundamentalMat _ _ _). destruct (float_lt _ _); [done|].
    by destruct (_ <? _).
  - destruct (solvePnPRansac _ _ _ _) as [[??]?]. by destruct (_ <? _).
Qed.

Lemma verifies_empty lc w idx : files w = ∅ → verifies lc w idx = false.
Proof.
  intros Hw. unfold verifies. rewrite compute_missing; [done|].
  by rewrite Hw, lookup_empty.
Qed.

(** *** The passes of the candidate loop *)

Lemma loop_body_acceptable lc w m s (c : Z * float) :
  m !! best_m s = Some c →
  acceptable lc w c.1 = true →
  ∃ s', loop_body lc w m s = (Break, s') ∧ valid s' = true ∧
        best_m s' = best_m s.
Proof.
  intros Hm. unfold acceptable, loop_body. rewrite Hm.
  rewrite (compute_valid _ _ _ _ _ c.1) by done.
  rewrite (compute_valid _ _ _ _ _ (c.1 - 1)) by done.
  rewrite (compute_valid _ _ _ _ _ (c.1 + 1)) by done.
  destruct (verifies lc w c.1); [|done].
  destruct (validate (params_ lc)); simpl; [|by eexists].
  destruct (verifies lc w (c.1 - 1)); simpl; [by eexists|].
  destruct (verifies lc w (c.1 + 1)); [by eexists|done].
Qed.

Lemma loop_body_unacceptable lc w m s (c : Z * float) :
  m !! best_m s = Some c →
  acceptable lc w c.1 = false →
  ∃ s', loop_body lc w m s = (Continue, s').
Proof.
  intros Hm. unfold acceptable, loop_body. rewrite Hm.
  rewrite (compute_valid _ _ _ _ _ c.1) by done.
  rewrite (compute_valid _ _ _ _ _ (c.1 - 1)) by done.
  rewrite (compute_valid _ _ _ _ _ (c.1 + 1)) by done.
  destruct (verifies lc w c.1); [|by eexists].
  destruct (validate (params_ lc)); simpl; [|done].
  destruct (verifies lc w (c.1 - 1)); simpl; [done|].
  destruct (verifies lc w (c.1 + 1)); [done|by eexists].
Qed.

(** The loop stops on the first acceptable candidate among those it can
    reach, and ends with [valid] false when there is none. *)
Lemma candidate_loop_first fuel lc w (m : list (Z * float)) s :
  valid s = false →
  (Z.to_nat (n_candidates (params_ lc)) - best_m s ≤ fuel)%nat →
  match list_find (λ c : Z * float, acceptable lc w c.1 = true)
                  (take (Z.to_nat (n_candidates (params_ lc)) - best_m s)
                        (drop (best_m s) m)) with
  | Some (k, c) =>
      valid (candidate_loop fuel lc w m s) = true ∧
      best_m (candidate_loop fuel lc w m s) = (best_m s + k)%nat ∧
      m !! best_m (candidate_loop fuel lc w m s) = Some c
  | None => valid (candidate_loop fuel lc w m s) = false
  end.
Proof.
  revert s. induction fuel as [|fuel IH]; intros s Hs Hfuel.
  { replace (Z.to_nat (n_candidates (params_ lc)) - best_m s)%nat
      with 0%nat by lia. done. }
  simpl. destruct (_ <? _) eqn:Hlt.
  2:{ apply Z.ltb_ge in Hlt.
      replace (Z.to_nat (n_candidates (params_ lc)) - best_m s)%nat
        with 0%nat by lia. done. }
  apply Z.ltb_lt in Hlt.
  destruct (m !! best_m s) as [c|] eqn:Hm.
  2:{ rewrite loop_body_exhausted by done.
      rewrite drop_ge by (by apply lookup_ge_None).
      rewrite take_nil. done. }
  replace (Z.to_nat (n_candidates (params_ lc)) - best_m s)%nat
    with (S (Z.to_nat (n_candidates (params_ lc)) - S (best_m s)))%nat by lia.
  rewrite (drop_S _ _ _ Hm). simpl.
  destruct (decide (acceptable lc w c.1 = true)) as [Hacc|Hacc].
  - destruct (loop_body_acceptable _ _ _ _ _ Hm Hacc) as (s' & -> & Hv & Hb).
    rewrite Hv, Hb, Nat.add_0_r. by rewrite Hm.
  - apply not_true_is_false in Hacc.
    destruct (loop_body_unacceptable _ _ _ _ _ Hm Hacc) as (s' & Hbody).
    rewrite Hbody.
    destruct (loop_body_continue _ _ _ _ _ Hbody) as [Hb Hv].
    specialize (IH s' Hv). rewrite Hb in IH.
    specialize (IH ltac:(lia)).
    destruct (list_find _ _) as [[k c']|]; simpl; [|done].
    replace (best_m s + S k)%nat with (S (best_m s) + k)%nat by lia. done.
Qed.

(** Whatever the pass decides, [lc_name] and [trans] hold what the primary
    verification left in them. *)
Lemma loop_body_outputs lc w m s (c : Z * float) :
  m !! best_m s = Some c →
  (lc_name (loop_body lc w m s).2, trans (loop_body lc w m s).2)
  = pass lc w (lc_name s, trans s) c.
Proof.
  intros Hm. unfold loop_body, pass. rewrite Hm. simpl.
  destruct (v_valid (compute _ _ _ (record_file _ c.1) _ _));
    destruct (validate (params_ lc)); simpl; try done.
  destruct (v_valid (compute _ _ _ (record_file _ (c.1 - 1)) _ _)); [done|].
  by destruct (v_valid (compute _ _ _ (record_file _ (c.1 + 1)) _ _)).
Qed.

(** The loop leaves in [lc_name] and [trans] what the primary verification
    of the candidate it stops on left there. *)
Lemma candidate_loop_carried fuel lc w (m : list (Z * float)) s k c :
  valid s = false →
  (Z.to_nat (n_candidates (params_ lc)) - best_m s ≤ fuel)%nat →
  list_find (λ c : Z * float, acceptable lc w c.1 = true)
            (take (Z.to_nat (n_candidates (params_ lc)) - best_m s)
                  (drop (best_m s) m)) = Some (k, c) →
  (lc_name (candidate_loop fuel lc w m s), trans (candidate_loop fuel lc w m s))
  = pass lc w (foldl (pass lc w) (lc_name s, trans s)
                     (take k (drop (best_m s) m))) c.
Proof.
  revert s k. induction fuel as [|fuel IH]; intros s k Hs Hfuel.
  { replace (Z.to_nat (n_candidates (params_ lc)) - best_m s)%nat
      with 0%nat by lia. done. }
  simpl. destruct (_ <? _) eqn:Hlt.
  2:{ apply Z.ltb_ge in Hlt.
      replace (Z.to_nat (n_candidates (params_ lc)) - best_m s)%nat
        with 0%nat by lia. done. }
  apply Z.ltb_lt in Hlt.
  destruct (m !! best_m s) as [c0|] eqn:Hm.
  2:{ rewrite drop_ge by (by apply lookup_ge_None). by rewrite take_nil. }
  replace (Z.to_nat (n_candidates (params_ lc)) - best_m s)%nat
    with (S (Z.to_nat (n_candidates (params_ lc)) - S (best_m s)))%nat by lia.
  rewrite (drop_S _ _ _ Hm). simpl.
  pose proof (loop_body_outputs lc w m s c0 Hm) as Hout.
  destruct (decide (acceptable lc w c0.1 = true)) as [Hacc|Hacc].
  - intros [= <- <-].
    destruct (loop_body_acceptable _ _ _ _ _ Hm Hacc) as (s' & Hbody & _).
    rewrite Hbody in *. done.
  - apply not_true_is_false in Hacc.
    destruct (loop_body_unacceptable _ _ _ _ _ Hm Hacc) as (s' & Hbody).
    rewrite Hbody in *. simpl in Hout.
    destruct (loop_body_continue _ _ _ _ _ Hbody) as [Hb Hv].
    specialize (IH s'). rewrite Hb in IH.
    destruct (list_find _ _) as [[k' c']|] eqn:Hfind; simpl; [|done].
    intros [= <- <-]. simpl. rewrite <- Hout.
    apply IH; [done|lia|done].
Qed.

Lemma loop_body_calls lc w m s :
  (length (exists_calls (trace (loop_body lc w m s).2))
   ≤ length (exists_calls (trace s))
     + (if validate (params_ lc) then 3 else 1))%nat.
Proof.
  unfold loop_body. destruct (m !! best_m s) as [c|]; simpl.
  2:{ destruct (validate (params_ lc)); lia. }
  destruct (v_valid (compute _ _ _ (record_file _ c.1) _ _));
    destruct (validate (params_ lc)); simpl;
    rewrite ?exists_calls_app, ?length_app, ?compute_exists_calls;
    simpl; try lia.
  destruct (v_valid (compute _ _ _ (record_file _ (c.1 - 1)) _ _)); simpl.
  { rewrite !exists_calls_app, !length_app, !compute_exists_calls. simpl. lia. }
  destruct (v_valid (compute _ _ _ (record_file _ (c.1 + 1)) _ _)); simpl;
    rewrite !exists_calls_app, !length_app, !compute_exists_calls; simpl; lia.
Qed.

Lemma candidate_loop_calls fuel lc w m s :
  (length (exists_calls (trace (candidate_loop fuel lc w m s)))
   ≤ length (exists_calls (trace s))
     + (if validate (params_ lc) then 3 else 1)
       * (Z.to_nat (n_candidates (params_ lc)) - best_m s))%nat.
Proof.
  pose proof (loop_body_calls lc w m) as Hcalls.
  set (k := if validate (params_ lc) then 3%nat else 1%nat) in *.
  clearbody k.
  revert s. induction fuel as [|fuel IH]; intros s; simpl; [nia|].
  destruct (_ <? _) eqn:Hlt; [|nia]. apply Z.ltb_lt in Hlt.
  specialize (Hcalls s).
  destruct (loop_body lc w m s) as [[] s'] eqn:Hbody; simpl in Hcalls.
  - nia.
  - apply loop_body_continue in Hbody as [Hb _].
    specialize (IH s'). rewrite Hb in IH. nia.
Qed.

(** Without [validate], a run that ends with [valid] false has rejected
    every candidate it looked at, and the transform is as it was. *)
Lemma candidate_loop_rejects_all fuel lc w m s :
  validate (params_ lc) = false →
  valid s = false →
  valid (candidate_loop fuel lc w m s) = false →
  trans (candidate_loop fuel lc w m s) = trans s.
Proof.
  intros Hval. revert s. induction fuel as [|fuel IH]; intros s Hs; [done|].
  simpl. destruct (_ <? _); [|done].
  destruct (m !! best_m s) as [c|] eqn:Hm.
  2:{ by rewrite loop_body_exhausted. }
  destruct (verifies lc w c.1) eqn:Hv.
  - rewrite (loop_body_accepted _ _ _ _ c) by done. done.
  - rewrite (loop_body_rejected _ _ _ _ c) by done. intros Hfinal.
    rewrite IH by done. simpl. apply compute_rejects.
    by rewrite (compute_valid _ _ _ _ _ c.1).
Qed.

(** *** What a session leaves in its working directory *)

Lemma query_unfold (st : LoopClosure * World) (o : Observation) i0 n0 t0 :
  query sorter st o i0 n0 t0
  = getLoopClosure sorter (ingest st o).1 (ingest st o).2 i0 n0 t0.
Proof. reflexivity. Qed.

Lemma reported_record lc w i0 n0 t0 :
  c_valid (getLoopClosure sorter lc w i0 n0 t0) = true →
  ∃ f,
    files w !! record_file (params_ lc)
      (c_lc_img_idx (getLoopClosure sorter lc w i0 n0 t0)) = Some f ∧
    c_lc_name (getLoopClosure sorter lc w i0 n0 t0) = yml_name f.
Proof.
  destruct (hash_isInitialized (hash_ lc)) eqn:Hinit;
    [|by rewrite getLoopClosure_bootstrap].
  destruct (reaches_loop lc) eqn:Hreach; [|by rewrite getLoopClosure_few].
  rewrite getLoopClosure_loop by done. simpl.
  destruct (valid (final_cursor sorter lc w)) eqn:Hv; [|done].
  destruct (candidate_loop_accepts _ _ _ _ cursor0 eq_refl Hv)
    as (cand & name_in & trans_in & Hcand & Hok & Hname & _).
  fold (final_cursor sorter lc w) in Hcand, Hname. rewrite Hcand. simpl.
  intros _. rewrite compute_table in Hok, Hname.
  destruct (compute_accepts _ _ _ _ _ _ Hok) as (f & Hf & Hn & _).
  exists f. split; [done|]. by rewrite Hname.
Qed.

Lemma empty_world_no_closure lc w i0 n0 t0 :
  files w = ∅ → c_valid (getLoopClosure sorter lc w i0 n0 t0) = false.
Proof.
  intros Hw.
  destruct (c_valid (getLoopClosure sorter lc w i0 n0 t0)) eqn:Hv; [|done].
  destruct (reported_record _ _ _ _ _ Hv) as (f & Hf & _).
  by rewrite Hw, lookup_empty in Hf.
Qed.

(** The record that [setNode] writes for an observation. *)
Lemma ingest_world (st : LoopClosure * World) (o : Observation) :
  dir_ok st.2 = true →
  ∃ kp desc threed,
    (ingest st o).2 =
      {| dir_ok := true;
         files := <[record_file (params_ st.1) (img_idx_ st.1)
                    := Yml (obs_name o) kp desc threed]> (files st.2) |} ∧
    (∀ img name, o = Mono img name → threed = []).
Proof.
  intros Hdir. destruct o as [img name|img_l img_r name]; simpl;
    unfold write_file; rewrite Hdir; do 3 eexists; split; done.
Qed.

Lemma ingest_no_directory (st : LoopClosure * World) (o : Observation) :
  no_directory st.2 → (ingest st o).2 = st.2.
Proof.
  intros [Hdir _]. destruct o; simpl; unfold write_file; by rewrite Hdir.
Qed.

Lemma step_frame (st : LoopClosure * World) (o : Observation) :
  params_ (step sorter st o).1 = params_ st.1 ∧
  img_idx_ (step sorter st o).1 = img_idx_ st.1 + 1 ∧
  (step sorter st o).2 = (ingest st o).2.
Proof.
  unfold step, query. simpl. rewrite getLoopClosure_self.
  destruct (ingest_frame st o) as (Hp & _ & _ & Hi).
  by destruct (hash_isInitialized _).
Qed.

Lemma session_snoc (st : LoopClosure * World) history (o : Observation) :
  session sorter st (history ++ [o]) = step sorter (session sorter st history) o.
Proof. unfold session. by rewrite foldl_app. Qed.

Lemma session_no_directory (st : LoopClosure * World) history :
  no_directory st.2 → (session sorter st history).2 = st.2.
Proof.
  intros Hno. induction history as [|o history IH] using rev_ind; [done|].
  rewrite session_snoc. destruct (step_frame (session sorter st history) o)
    as (_ & _ & ->).
  rewrite ingest_no_directory; [done|]. by rewrite IH.
Qed.

(** After a history, the counter is its length and the directory, when it
    exists, holds one record per observation, under its number and name. *)
Lemma session_records (st : LoopClosure * World) history :
  img_idx_ st.1 = 0 → dir_ok st.2 = true →
  img_idx_ (session sorter st history).1 = Z.of_nat (length history) ∧
  dir_ok (session sorter st history).2 = true ∧
  ∀ i o, history !! i = Some o →
    ∃ kp desc threed,
      files (session sorter st history).2
        !! record_file (params_ st.1) (Z.of_nat i)
      = Some (Yml (obs_name o) kp desc threed) ∧
      (∀ img name, o = Mono img name → threed = []).
Proof.
  intros Hidx Hdir.
  induction history as [|o history IH] using rev_ind.
  { by repeat split. }
  destruct IH as (IHidx & IHdir & IHfiles).
  rewrite session_snoc.
  destruct (step_frame (session sorter st history) o) as (_ & -> & ->).
  destruct (ingest_world (session sorter st history) o IHdir)
    as (kp & desc & threed & -> & Hmono).
  rewrite session_params, IHidx, length_app. simpl.
  split; [lia|]. split; [done|].
  intros i o' Hi. apply lookup_app_Some in Hi as [Hi | [Hge Hi]].
  - rewrite lookup_insert_ne.
    + by apply IHfiles.
    + intros Heq%record_file_inj. apply lookup_lt_Some in Hi. lia.
  - apply list_lookup_singleton_Some in Hi as [Hi0 <-].
    replace (Z.of_nat i) with (Z.of_nat (length history)) by lia.
    rewrite lookup_insert_eq. by exists kp, desc, threed.
Qed.

End Verifier.

(** ** What [getLoopClosure] returns for a validated closure *)

Section ReturnedClosure.
Context `{TK : Toolkit} (sorter : StdSort (Z * float) sortByMatching).
Implicit Types (lc : LoopClosure) (w : World).

(** C10. With [validate] enabled, a reported closure is the first
    acceptable candidate of the shortlist, and the name and the transform
    that [getLoopClosure] returns are the ones the primary verification of
    that candidate produced, called on what the passes over the candidates
    before it had left in [lc_name] and [trans]; the candidate passed one of
    the two cross-checks, whose own name and transform are not returned. *)
Theorem validated_closure_returns_primary lc w (lc_img_idx0 : Z)
    (lc_name0 : string) (trans0 : Transform) :
  validate (params_ lc) = true →
  let r := getLoopClosure sorter lc w lc_img_idx0 lc_name0 trans0 in
  c_valid r = true →
  ∃ (k : nat) (cand : Z * float),
    list_find (λ c : Z * float, acceptable lc w c.1 = true)
              (shortlist sorter lc) = Some (k, cand) ∧
    let start := carried lc w (take k (candidates sorter lc)) in
    let v := compute lc w (img_ lc) (record_file (params_ lc) cand.1)
                     start.1 start.2 in
    v_valid v = true ∧
    verifies lc w (cand.1 - 1) || verifies lc w (cand.1 + 1) = true ∧
    c_lc_img_idx r = cand.1 ∧
    c_lc_name r = v_lc_name v ∧
    c_trans r = v_trans v.
Proof.
  intros Hval r Hvalid.
  assert (reaches_loop lc = true) as Hreach.
  { destruct (hash_isInitialized (hash_ lc)) eqn:Hinit.
    - destruct (reaches_loop lc) eqn:Hreach; [done|].
      unfold r in Hvalid. by rewrite getLoopClosure_few in Hvalid.
    - unfold r in Hvalid. by rewrite getLoopClosure_bootstrap in Hvalid. }
  pose proof (candidate_loop_first
                (Z.to_nat (n_candidates (params_ lc)))
                (set_hash_table lc (appended lc)) w
                (candidates sorter lc) cursor0 eq_refl) as Hfirst.
  pose proof (candidate_loop_carried
                (Z.to_nat (n_candidates (params_ lc)))
                (set_hash_table lc (appended lc)) w
                (candidates sorter lc) cursor0) as Hcar.
  simpl in Hfirst, Hcar. rewrite Nat.sub_0_r in Hfirst, Hcar.
  specialize (Hfirst ltac:(lia)).
  fold (final_cursor sorter lc w) in Hfirst, Hcar.
  change (acceptable (set_hash_table lc (appended lc)) w)
    with (acceptable lc w) in Hfirst, Hcar.
  change (pass (set_hash_table lc (appended lc)) w)
    with (pass lc w) in Hcar.
  rewrite drop_0 in Hfirst, Hcar.
  fold (shortlist sorter lc) in Hfirst, Hcar.
  unfold r in Hvalid |- *. rewrite getLoopClosure_loop in Hvalid |- * by done.
  cbv zeta in Hvalid |- *.
  destruct (list_find _ (shortlist sorter lc)) as [[k cand]|] eqn:Hfind.
  2:{ rewrite Hfirst in Hvalid. done. }
  destruct Hfirst as (Hv & _ & Hm).
  specialize (Hcar k cand eq_refl ltac:(lia) eq_refl).
  injection Hcar as Hname Htrans.
  exists k, cand. split; [done|].
  apply list_find_Some in Hfind as (_ & Hacc & _).
  unfold acceptable in Hacc. rewrite Hval in Hacc. simpl in Hacc.
  apply andb_true_iff in Hacc as [Hprim Hcross].
  split; [by rewrite (compute_valid _ _ _ _ _ cand.1)|].
  split; [done|].
  rewrite Hv, Hm. simpl. done.
Qed.

End ReturnedClosure.

Section Extras.
Context `{TK : Toolkit} (sorter : StdSort (Z * float) sortByMatching).
Implicit Types (lc : LoopClosure) (w : World) (s : Cursor).

(** X1. A query looks up at most [n_candidates] record files without
    [validate], and at most three times as many with it. *)
Theorem bounded_lookups lc w (lc_img_idx0 : Z) (lc_name0 : string)
    (trans0 : Transform) :
  (length (exists_calls
             (c_trace (getLoopClosure sorter lc w lc_img_idx0 lc_name0 trans0)))
   ≤ (if validate (params_ lc) then 3 else 1)
     * Z.to_nat (n_candidates (params_ lc)))%nat.
Proof.
  destruct (hash_isInitialized (hash_ lc)) eqn:Hinit.
  2:{ rewrite getLoopClosure_bootstrap by done. simpl. lia. }
  destruct (reaches_loop lc) eqn:Hreach.
  2:{ rewrite getLoopClosure_few by done. simpl. lia. }
  rewrite getLoopClosure_loop by done. simpl.
  pose proof (candidate_loop_calls
                (Z.to_nat (n_candidates (params_ lc)))
                (set_hash_table lc (appended lc)) w
                (candidates sorter lc) cursor0) as Hcalls.
  simpl in Hcalls. rewrite Nat.sub_0_r in Hcalls.
  by destruct (if valid _ then _ else _).
Qed.

(** X2. Once past the early returns, the query reports the first candidate
    of the ranking, among the first [n_candidates], that passes the primary
    verification and, with [validate], one of the two cross-checks; when no
    such candidate exists it returns false with index -1 and an empty
    name. *)
Theorem first_acceptable_candidate lc w (lc_img_idx0 : Z)
    (lc_name0 : string) (trans0 : Transform) :
  reaches_loop lc = true →
  match list_find (λ c : Z * float, acceptable lc w c.1 = true)
                  (shortlist sorter lc) with
  | Some (k, c) =>
      c_valid (getLoopClosure sorter lc w lc_img_idx0 lc_name0 trans0) = true ∧
      c_lc_img_idx (getLoopClosure sorter lc w lc_img_idx0 lc_name0 trans0)
      = c.1
  | None =>
      c_valid (getLoopClosure sorter lc w lc_img_idx0 lc_name0 trans0) = false ∧
      c_lc_img_idx (getLoopClosure sorter lc w lc_img_idx0 lc_name0 trans0)
      = -1 ∧
      c_lc_name (getLoopClosure sorter lc w lc_img_idx0 lc_name0 trans0)
      = EmptyString
  end.
Proof.
  intros Hreach. rewrite getLoopClosure_loop by done. simpl.
  pose proof (candidate_loop_first
                (Z.to_nat (n_candidates (params_ lc)))
                (set_hash_table lc (appended lc)) w
                (candidates sorter lc) cursor0 eq_refl) as Hfirst.
  simpl in Hfirst. rewrite Nat.sub_0_r in Hfirst.
  specialize (Hfirst ltac:(lia)).
  fold (final_cursor sorter lc w) in Hfirst. unfold shortlist.
  change (acceptable (set_hash_table lc (appended lc)) w)
    with (acceptable lc w) in Hfirst.
  destruct (list_find _ _) as [[k c]|].
  - destruct Hfirst as (Hv & _ & Hm). by rewrite Hv, Hm.
  - by rewrite Hfirst.
Qed.

(** X3. A query that enters the candidate loop and finds no closure returns
    index -1 and an empty name, whatever the caller's variables held; without
    [validate] it also returns the identity transform. *)
Theorem no_closure_after_loop lc w (lc_img_idx0 : Z) (lc_name0 : string)
    (trans0 : Transform) :
  reaches_loop lc = true →
  c_valid (getLoopClosure sorter lc w lc_img_idx0 lc_name0 trans0) = false →
  c_lc_img_idx (getLoopClosure sorter lc w lc_img_idx0 lc_name0 trans0) = -1 ∧
  c_lc_name (getLoopClosure sorter lc w lc_img_idx0 lc_name0 trans0)
  = EmptyString ∧
  (validate (params_ lc) = false →
   c_trans (getLoopClosure sorter lc w lc_img_idx0 lc_name0 trans0)
   = tf_identity).
Proof.
  intros Hreach. rewrite getLoopClosure_loop by done. simpl.
  destruct (valid (final_cursor sorter lc w)) eqn:Hv.
  { by destruct (candidates sorter lc !! _). }
  simpl. intros _. repeat split. intros Hval.
  unfold final_cursor in *. by rewrite candidate_loop_rejects_all.
Qed.

(** X4. A reported closure points at a record that exists: the record file
    of the reported index is in the working directory, and the reported name
    is the name stored in it. *)
Theorem closure_names_record lc w (lc_img_idx0 : Z) (lc_name0 : string)
    (trans0 : Transform) :
  c_valid (getLoopClosure sorter lc w lc_img_idx0 lc_name0 trans0) = true →
  ∃ f,
    files w !! record_file (params_ lc)
      (c_lc_img_idx (getLoopClosure sorter lc w lc_img_idx0 lc_name0 trans0))
    = Some f ∧
    c_lc_name (getLoopClosure sorter lc w lc_img_idx0 lc_name0 trans0)
    = yml_name f.
Proof. apply reported_record. Qed.

(** X5. [compute] accepts only a record that exists, with at least
    [min_matches] descriptor matches and at least [min_inliers] inliers; it
    then returns the name stored in the record, and for a mono record the
    transform it was given. *)
Theorem accepted_verification lc w (im : Image) (path : string)
    (name0 : string) (trans0 : Transform) :
  v_valid (compute lc w im path name0 trans0) = true →
  ∃ f, files w !! path = Some f ∧
       v_lc_name (compute lc w im path name0 trans0) = yml_name f ∧
       min_matches (params_ lc) ≤ v_matches (compute lc w im path name0 trans0) ∧
       min_inliers (params_ lc) ≤ v_inliers (compute lc w im path name0 trans0) ∧
       (mono_file f = true →
        v_trans (compute lc w im path name0 trans0) = trans0).
Proof.
  intros Hok. destruct (compute_accepts _ _ _ _ _ _ Hok) as (f & Hf & Hrest).
  exists f. split; [done|]. destruct Hrest as (? & ? & ?).
  repeat split; try done. intros Hmono. apply compute_mono_trans.
  intros f' Hf'. congruence.
Qed.

(** X6. A verification that rejects leaves the transform as it was given,
    for mono and stereo records alike: the pose is written only on the way
    to [return true]. *)
Theorem rejected_verification lc w (im : Image) (path : string)
    (name0 : string) (trans0 : Transform) :
  v_valid (compute lc w im path name0 trans0) = false →
  v_trans (compute lc w im path name0 trans0) = trans0.
Proof. apply compute_rejects. Qed.

(** X7. A negative [min_neighbour] turns loop-closure detection off: the
    comparison with the table size converts it to a huge [size_t], so every
    query after the bootstrap returns false without verifying anything. *)
Theorem negative_min_neighbour lc w (lc_img_idx0 : Z) (lc_name0 : string)
    (trans0 : Transform) :
  is_int (min_neighbour (params_ lc)) →
  min_neighbour (params_ lc) < 0 →
  Z.of_nat (length (hash_table_ lc)) < 2 ^ 63 →
  c_valid (getLoopClosure sorter lc w lc_img_idx0 lc_name0 trans0) = false ∧
  c_trace (getLoopClosure sorter lc w lc_img_idx0 lc_name0 trans0) = [].
Proof.
  intros [Hlo Hhi] Hneg Hlen.
  destruct (hash_isInitialized (hash_ lc)) eqn:Hinit;
    [|by rewrite getLoopClosure_bootstrap].
  rewrite getLoopClosure_few; [done..|].
  unfold reaches_loop. rewrite Hinit. simpl.
  apply negb_false_iff, Z.leb_le. unfold appended, to_size_t.
  rewrite length_app. simpl.
  rewrite <- (Z.mod_add _ 1 (2 ^ 64)) by lia.
  rewrite Z.mod_small; lia.
Qed.

(** X8. With [0 <= min_neighbour] below the table size, the candidates are
    all entries but the last [min_neighbour]: their number is the table size
    minus [min_neighbour]. *)
Theorem candidate_count lc :
  is_int (min_neighbour (params_ lc)) →
  0 ≤ min_neighbour (params_ lc) →
  Z.of_nat (length (appended lc)) < 2 ^ 64 →
  reaches_loop lc = true →
  Z.of_nat (length (candidates sorter lc))
  = Z.of_nat (length (appended lc)) - min_neighbour (params_ lc).
Proof.
  intros [Hlo Hhi] Hpos Hlen Hreach.
  unfold reaches_loop in Hreach.
  apply andb_true_iff in Hreach as [_ Hreach].
  apply negb_true_iff, Z.leb_gt in Hreach.
  unfold to_size_t in Hreach. rewrite Z.mod_small in Hreach by lia.
  unfold candidates, ranking.
  rewrite <- (Permutation_length (std_sort_perm sorter _)).
  unfold hash_matchings. rewrite length_fmap, length_take.
  unfold scored_count, to_size_t.
  rewrite (Z.mod_small (min_neighbour _)) by lia.
  rewrite Z.mod_small by lia. lia.
Qed.

(** X9. With [min_neighbour] 0 nothing is left out: the entry just appended
    for the current image is itself among the candidates. *)
Theorem current_image_is_candidate lc :
  hash_isInitialized (hash_ lc) = true →
  min_neighbour (params_ lc) = 0 →
  Z.of_nat (length (appended lc)) < 2 ^ 64 →
  reaches_loop lc = true ∧
  img_idx_ lc - 1 ∈ (candidates sorter lc).*1.
Proof.
  intros Hinit Hmn Hlen.
  assert (0 < Z.of_nat (length (appended lc))) as Hpos.
  { unfold appended. rewrite length_app. simpl. lia. }
  split.
  { unfold reaches_loop. rewrite Hinit, Hmn. simpl.
    apply negb_true_iff, Z.leb_gt. done. }
  unfold candidates, ranking.
  rewrite <- (std_sort_perm sorter). unfold hash_matchings.
  rewrite Hmn. unfold scored_count, to_size_t.
  rewrite Z.mod_0_l, Z.sub_0_r, Z.mod_small, Nat2Z.id by lia.
  rewrite firstn_all. unfold appended.
  rewrite !fmap_app. simpl. apply elem_of_app. right.
  apply list_elem_of_singleton. done.
Qed.

(** X10. [setNode] round trip: when the working directory exists, the
    record of the ingested observation is stored under the index the counter
    had, with the name given (and no 3-D points for a mono image), the
    counter moves on by one, and the record of every other index is left as
    it was. *)
Theorem ingested_record_reads_back (st : LoopClosure * World)
    (o : Observation) :
  dir_ok st.2 = true →
  (∃ kp desc threed,
     files (ingest st o).2 !! record_file (params_ st.1) (img_idx_ st.1)
     = Some (Yml (obs_name o) kp desc threed) ∧
     (∀ img name, o = Mono img name → threed = [])) ∧
  img_idx_ (ingest st o).1 = img_idx_ st.1 + 1 ∧
  ∀ j, j ≠ img_idx_ st.1 →
    files (ingest st o).2 !! record_file (params_ st.1) j
    = files st.2 !! record_file (params_ st.1) j.
Proof.
  intros Hdir.
  destruct (ingest_world st o Hdir) as (kp & desc & threed & -> & Hmono).
  simpl. split; [|split].
  - exists kp, desc, threed. by rewrite lookup_insert_eq.
  - by destruct (ingest_frame st o) as (_ & _ & _ & ->).
  - intros j Hj. rewrite lookup_insert_ne; [done|].
    intros Heq%record_file_inj. done.
Qed.

(** X11. Along a session whose directory was created, a reported closure
    carries the number of an observation ingested so far and the name that
    observation was ingested under. *)
Theorem closure_name_is_ingested_name lc0 (now : Z)
    (history : list Observation) (o : Observation)
    (lc_img_idx0 : Z) (lc_name0 : string) (trans0 : Transform) :
  let st := session sorter (init lc0 now true).1 history in
  let r := query sorter st o lc_img_idx0 lc_name0 trans0 in
  c_valid r = true →
  ∃ i o', (history ++ [o]) !! i = Some o' ∧
          c_lc_img_idx r = Z.of_nat i ∧ c_lc_name r = obs_name o'.
Proof.
  intros st r Hvalid. unfold r in *. rewrite query_unfold in *.
  destruct (reported_record sorter _ _ _ _ _ Hvalid) as (f & Hf & Hname).
  pose proof (indexed_ingest st o
                (indexed_session sorter _ history (indexed_init lc0 now true)))
    as [_ Hfiles].
  destruct (Hfiles _ (mk_is_Some _ _ Hf)) as (i & Hi & Heq).
  apply record_file_inj in Heq.
  destruct (session_records sorter (init lc0 now true).1 (history ++ [o])
              eq_refl eq_refl) as (Hidx & _ & Hrec).
  rewrite session_snoc in Hidx, Hrec. fold st in Hidx, Hrec.
  destruct (step_frame sorter st o) as (_ & Hidx' & Hw).
  rewrite Hw in Hrec. rewrite Hidx' in Hidx.
  destruct (ingest_frame st o) as (Hp & _ & _ & Hi').
  rewrite Hi' in Hi.
  assert (Z.to_nat i < length (history ++ [o]))%nat as Hlt by lia.
  apply lookup_lt_is_Some_2 in Hlt as [o' Ho'].
  exists (Z.to_nat i), o'. split; [done|]. split; [lia|].
  destruct (Hrec _ _ Ho') as (kp & desc & threed & Hfile & _).
  rewrite Z2Nat.id in Hfile by lia.
  rewrite Heq, Hp in Hf. unfold st in Hf. rewrite session_params in Hf.
  fold st in Hf. rewrite Hfile in Hf. injection Hf as <-. by rewrite Hname.
Qed.

(** X13. After [finalize] the records of the session are gone: whatever is
    ingested and queried next on the same object, no closure is reported. *)
Theorem no_closure_after_finalize lc0 (now : Z) (created : bool)
    (history more : list Observation) (o : Observation)
    (lc_img_idx0 : Z) (lc_name0 : string) (trans0 : Transform) :
  let st := session sorter (init lc0 now created).1 history in
  c_valid (query sorter (session sorter (st.1, finalize st.2) more) o
                 lc_img_idx0 lc_name0 trans0) = false.
Proof.
  intros st.
  assert (no_directory (finalize st.2)) as Hno.
  { destruct (session_records sorter (init lc0 now created).1 history
                               eq_refl eq_refl) as (_ & Hdir & _).
    unfold finalize. fold st in Hdir. by rewrite Hdir. }
  rewrite query_unfold. apply empty_world_no_closure.
  set (st' := session sorter (st.1, finalize st.2) more).
  assert (st'.2 = finalize st.2) as Hw by (by apply session_no_directory).
  rewrite ingest_no_directory; rewrite Hw; [apply Hno | done].
Qed.

(** X14. Two observations never share a record file: the path built from
    the working directory and the index determines the index. *)
Theorem distinct_indices_distinct_files (p : Params) (i j : Z) :
  i ≠ j → record_file p i ≠ record_file p j.
Proof. intros Hne Heq. by apply record_file_inj in Heq. Qed.

(** X15. Along a session the hash table holds observation numbers that were
    handed out, in increasing order: no observation is entered twice. *)
Theorem table_indices_increase lc0 (now : Z) (created : bool)
    (history : list Observation) :
  let lc := (session sorter (init lc0 now created).1 history).1 in
  (∀ i e, hash_table_ lc !! i = Some e → 0 ≤ e.1 < img_idx_ lc) ∧
  (∀ i j a b, hash_table_ lc !! i = Some a → hash_table_ lc !! j = Some b →
              (i < j)%nat → a.1 < b.1).
Proof.
  cbv zeta.
  pose proof (indexed_init lc0 now created) as Hindexed.
  assert (hash_table_ (init lc0 now created).1.1 = []) as Hempty by done.
  set (st0 := (init lc0 now created).1) in *. clearbody st0.
  induction history as [|o history IH] using rev_ind.
  { simpl. rewrite Hempty. split; intros *; by rewrite lookup_nil. }
  destruct IH as [IHb IHi]. rewrite session_snoc.
  assert (0 ≤ img_idx_ (session sorter st0 history).1) as Hpos
    by apply (indexed_session sorter _ history Hindexed).
  set (st := session sorter st0 history) in *.
  unfold step, query. simpl. rewrite getLoopClosure_self.
  destruct (ingest_frame st o) as (_ & _ & Ht & Hi).
  destruct (hash_isInitialized _); simpl; unfold appended; rewrite ?Ht, ?Hi.
  - split.
    + intros i e [He | [_ He]]%lookup_app_Some.
      * apply IHb in He. lia.
      * apply list_lookup_singleton_Some in He as [_ <-]. simpl. lia.
    + intros i j a b [Ha | [Hia Ha]]%lookup_app_Some
                     [Hb | [Hjb Hb]]%lookup_app_Some Hlt.
      * by eapply IHi.
      * apply list_lookup_singleton_Some in Hb as [_ <-]. simpl.
        apply IHb in Ha. lia.
      * apply lookup_lt_Some in Hb. lia.
      * apply list_lookup_singleton_Some in Ha as [Ha _].
        apply list_lookup_singleton_Some in Hb as [Hb _]. lia.
  - split.
    + intros i e He. apply IHb in He. lia.
    + done.
Qed.

End Extras.

(** * The scoring of [examples/mono.cpp] *)

Module MonoDriverFacts.
Import MonoDriver.

(** The clamp [if (img_j<0) img_j = 0]. *)
Lemma clamp_max (j : Z) : (if j <? 0 then 0 else j) = Z.max 0 j.
Proof. destruct (j <? 0) eqn:H; [apply Z.ltb_lt in H | apply Z.ltb_ge in H]; lia. Qed.

Lemma wrap_int_small (z : Z) : - 2 ^ 31 ≤ z < 2 ^ 31 → wrap_int z = z.
Proof. intros Hz. unfold wrap_int. rewrite Z.mod_small; lia. Qed.

Lemma gt_loop_sum (row : list Z) (img_lc tol bound : Z) :
  (∀ g, g ∈ row → 0 ≤ g ≤ bound) →
  ∀ (n : nat) (i acc : Z),
    0 ≤ acc → acc + bound * Z.of_nat n < 2 ^ 31 →
    (∀ k, 0 ≤ k < Z.of_nat n →
          Z.max 0 (img_lc - tol + i + k) < Z.of_nat (length row)) →
    ∃ r, gt_loop row img_lc tol n i acc = Some r ∧ acc ≤ r ∧
         (acc + 1 ≤ r ↔
          ∃ k g, 0 ≤ k < Z.of_nat n ∧
                 row !! Z.to_nat (Z.max 0 (img_lc - tol + i + k)) = Some g ∧
                 1 ≤ g).
Proof.
  intros Hpos. induction n as [|n IH]; intros i acc Hacc0 Hfit Hrange.
  { exists acc. simpl. split; [done|]. split; [lia|].
    split; [lia|]. intros (k & g & Hk & _). lia. }
  simpl. rewrite clamp_max.
  destruct (lookup_lt_is_Some_2 row (Z.to_nat (Z.max 0 (img_lc - tol + i))))
    as [g Hg].
  { specialize (Hrange 0 ltac:(lia)). rewrite Z.add_0_r in Hrange. lia. }
  rewrite Hg.
  assert (0 ≤ g ≤ bound) as Hg0 by (eapply Hpos, list_elem_of_lookup_2, Hg).
  rewrite Nat2Z.inj_succ in Hfit.
  unfold int_add. rewrite wrap_int_small by nia.
  destruct (IH (i + 1) (acc + g)) as (r & Hr & Hle & Hiff).
  { lia. }
  { nia. }
  { intros k Hk. specialize (Hrange (k + 1) ltac:(lia)).
    by replace (img_lc - tol + (i + 1) + k)
      with (img_lc - tol + i + (k + 1)) by lia. }
  exists r. split; [done|]. split; [lia|]. split.
  - intros Hacc. destruct (decide (1 ≤ g)) as [Hone|Hzero].
    + exists 0, g. rewrite Z.add_0_r. split; [lia|done].
    + destruct Hiff as [Hiff _].
      destruct (Hiff ltac:(lia)) as (k & g' & Hk & Hl & Hg').
      exists (k + 1), g'. split; [lia|].
      by replace (img_lc - tol + i + (k + 1))
        with (img_lc - tol + (i + 1) + k) by lia.
  - intros (k & g' & Hk & Hl & Hg').
    destruct (decide (k = 0)) as [->|Hk0].
    + rewrite Z.add_0_r, Hg in Hl. injection Hl as <-. lia.
    + destruct Hiff as [_ Hiff].
      assert (acc + g + 1 ≤ r); [|lia].
      apply Hiff. exists (k - 1), g'. split; [lia|].
      by replace (img_lc - tol + (i + 1) + (k - 1))
        with (img_lc - tol + i + k) by lia.
Qed.

Lemma gt_loop_past_end (row : list Z) (img_lc tol : Z) :
  ∀ (n : nat) (i acc : Z),
    (∃ k, 0 ≤ k < Z.of_nat n ∧
          Z.of_nat (length row) ≤ Z.max 0 (img_lc - tol + i + k)) →
    gt_loop row img_lc tol n i acc = None.
Proof.
  induction n as [|n IH]; intros i acc (k & Hk & Hout); [lia|].
  simpl. rewrite clamp_max.
  destruct (row !! Z.to_nat (Z.max 0 (img_lc - tol + i))) as [g|] eqn:Hg;
    [|done].
  apply IH. exists (k - 1).
  replace (img_lc - tol + (i + 1) + (k - 1))
    with (img_lc - tol + i + k) by lia.
  split; [|done].
  destruct (decide (k = 0)) as [->|]; [|lia].
  apply lookup_lt_Some in Hg. rewrite Z.add_0_r in Hout. lia.
Qed.

Lemma score_counts (ground_truth : list (list Z)) (tol : Z)
    (results : list (bool * Z)) :
  ∀ (img_i : nat) (t0 t : Tally),
    score ground_truth tol results img_i t0 = Some t →
    found_lc t
    = found_lc t0 + Z.of_nat (length (filter (λ r, r.1 = true) results)) ∧
    true_positives t + false_positives t - found_lc t
    = true_positives t0 + false_positives t0 - found_lc t0 ∧
    true_positives t0 ≤ true_positives t ∧
    false_positives t0 ≤ false_positives t.
Proof.
  induction results as [|[valid img_lc] rest IH]; intros img_i t0 t; simpl.
  { intros [= <-]. simpl. lia. }
  destruct (check_closure _ _ _ _ _ _) as [t'|] eqn:Hcheck; [|done].
  intros Hscore. apply IH in Hscore as (Hf & Hsum & Htp & Hfp).
  revert Hcheck. unfold check_closure.
  destruct valid.
  - rewrite filter_cons_True by done. simpl.
    destruct (ground_truth !! img_i) as [row|]; [|done].
    destruct (gt_valid row img_lc tol) as [g|]; [|done].
    destruct (1 <=? g); intros [= <-]; simpl in *; lia.
  - rewrite filter_cons_False by done.
    intros [= <-]. lia.
Qed.

(** X16. The ground-truth window: with a non-negative tolerance, the
    window inside the row and entries between 0 and a bound small enough
    for the [int] sum of the window not to overflow, a closure with
    [img_lc] counts as a true positive exactly when the row holds a
    positive entry between [max 0 (img_lc - gt_tolerance)] and
    [img_lc + gt_tolerance]. *)
Theorem window_decides_true_positive (row : list Z) (img_lc tol bound : Z) :
  0 ≤ tol → 0 ≤ img_lc →
  img_lc + tol < Z.of_nat (length row) →
  (∀ g, g ∈ row → 0 ≤ g ≤ bound) →
  bound * (2 * tol + 1) < 2 ^ 31 →
  ∃ g, gt_valid row img_lc tol = Some g ∧
       (1 ≤ g ↔
        ∃ j v, Z.max 0 (img_lc - tol) ≤ j ≤ img_lc + tol ∧
               row !! Z.to_nat j = Some v ∧ 1 ≤ v).
Proof.
  intros Htol Hlc Hend Hpos Hfit. unfold gt_valid.
  destruct (gt_loop_sum row img_lc tol bound Hpos
                        (Z.to_nat (2 * tol + 1)) 0 0)
    as (r & Hr & _ & Hiff).
  { done. }
  { rewrite Z2Nat.id by lia. lia. }
  { intros k Hk. lia. }
  exists r. split; [done|]. rewrite Z.add_0_l in Hiff. rewrite Hiff.
  split.
  - intros (k & g & Hk & Hl & Hg).
    exists (Z.max 0 (img_lc - tol + 0 + k)), g. split; [lia|done].
  - intros (j & v & Hj & Hl & Hv).
    exists (j - (img_lc - tol)), v. split; [lia|].
    replace (Z.max 0 (img_lc - tol + 0 + (j - (img_lc - tol)))) with j by lia.
    done.
Qed.

(** X17. The window is clamped at 0 but not at the end of the row: a
    closure whose index plus the tolerance reaches the length of the row
    makes the check read past the row. *)
Theorem window_reads_past_row (row : list Z) (img_lc tol : Z) :
  0 ≤ tol →
  Z.of_nat (length row) ≤ img_lc + tol →
  gt_valid row img_lc tol = None.
Proof.
  intros Htol Hend. unfold gt_valid. apply gt_loop_past_end.
  exists (2 * tol). split; [lia|]. lia.
Qed.

(** X18. When the scoring completes, every reported closure has been
    counted once, as a true positive or as a false positive: [found_lc] is
    the number of valid answers and equals
    [true_positives + false_positives]. *)
Theorem every_closure_is_scored_once (ground_truth : list (list Z))
    (tol : Z) (results : list (bool * Z)) (t : Tally) :
  score ground_truth tol results 0 tally0 = Some t →
  found_lc t = Z.of_nat (length (filter (λ r, r.1 = true) results)) ∧
  true_positives t + false_positives t = found_lc t ∧
  0 ≤ true_positives t ∧ 0 ≤ false_positives t.
Proof.
  intros Hscore. apply score_counts in Hscore. simpl in Hscore. lia.
Qed.

(** X19. The figures printed at the end: the precision is undefined (a
    division by zero) exactly when no closure was reported and lies between
    0 and 100 otherwise; the recall divides by [total_lc] minus the false
    positives, not by [total_lc]. *)
Theorem printed_figures (ground_truth : list (list Z)) (tol : Z)
    (results : list (bool * Z)) (t : Tally) (total : Z) :
  score ground_truth tol results 0 tally0 = Some t →
  (precision t = None ↔ found_lc t = 0) ∧
  (∀ p, precision t = Some p → 0 ≤ p ≤ 100) ∧
  recall total t
  = int_div (100 * true_positives t) (total - false_positives t).
Proof.
  intros Hscore. apply score_counts in Hscore. simpl in Hscore.
  destruct Hscore as (Hf & Hsum & Htp & Hfp).
  unfold precision, recall, int_div. split; [|split].
  - destruct (_ =? _) eqn:Hz;
      [apply Z.eqb_eq in Hz | apply Z.eqb_neq in Hz]; split; try done; lia.
  - intros p. destruct (_ =? _) eqn:Hz; [done|]. apply Z.eqb_neq in Hz.
    intros [= <-]. rewrite Z.quot_div_nonneg by lia. split.
    + apply Z.div_pos; lia.
    + apply Z.div_le_upper_bound; lia.
  - replace (true_positives t + (total - found_lc t))
      with (total - false_positives t) by lia. done.
Qed.

End MonoDriverFacts.

(** * Runs of the further properties on the toy toolkit *)

Module ToyExtras.
Import Toy ToySort ToyRuns MonoDriver.
Import QArith_base(Qmake).

(** An image of a place not seen before. *)
Definition stranger : Observation := Mono [70; 71]%nat "img5".

Lemma validated_closure_returns_primary_witness :
  let st := revisited false true 2 stereo_revisit in
  let r := getLoopClosure gnu st.1 st.2 7 "stale" 5 in
  validate (params_ st.1) = true ∧
  c_valid r = true ∧
  ∃ (k : nat) (cand : Z * float),
    list_find (λ c : Z * float, acceptable st.1 st.2 c.1 = true)
              (shortlist gnu st.1) = Some (k, cand) ∧
    let start := carried st.1 st.2 (take k (candidates gnu st.1)) in
    let v := compute st.1 st.2 (img_ st.1) (record_file (params_ st.1) cand.1)
                     start.1 start.2 in
    v_valid v = true ∧
    verifies st.1 st.2 (cand.1 - 1) || verifies st.1 st.2 (cand.1 + 1) = true ∧
    c_lc_img_idx r = cand.1 ∧
    c_lc_name r = v_lc_name v ∧
    c_trans r = v_trans v.
Proof.
  intros st r.
  assert (validate (params_ st.1) = true) as Hval by reflexivity.
  assert (c_valid r = true) as Hvalid by (vm_compute; reflexivity).
  split; [exact Hval|]. split; [exact Hvalid|].
  exact (validated_closure_returns_primary gnu st.1 st.2 7 "stale" 5
                                           Hval Hvalid).
Defined.

(** The run of the witness: image 1, a stereo pair, is accepted on the
    cross-check against image 2; the closure carries the name and the pose
    of image 1, not those the cross-check read and computed. *)
Example cross_check_outputs_dropped :
  let st := revisited false true 2 stereo_revisit in
  let r := getLoopClosure gnu st.1 st.2 7 "stale" 5 in
  let v_prev := compute st.1 st.2 (img_ st.1) (record_file (params_ st.1) 0)
                        EmptyString tf_default in
  let v_next := compute st.1 st.2 (img_ st.1) (record_file (params_ st.1) 2)
                        (v_lc_name v_prev) (v_trans v_prev) in
  (c_valid r, c_lc_img_idx r, c_lc_name r, c_trans r) = (true, 1, "img1", 6) ∧
  v_valid v_prev = false ∧
  (v_valid v_next, v_lc_name v_next, v_trans v_next) = (true, "img2", 4).
Proof. vm_compute. repeat split; reflexivity. Qed.

Lemma first_acceptable_candidate_witness :
  let st := revisited false true 2 revisit in
  let r := getLoopClosure keeping st.1 st.2 7 "stale" 5 in
  reaches_loop st.1 = true ∧
  list_find (λ c : Z * float, acceptable st.1 st.2 c.1 = true)
            (shortlist keeping st.1) = Some (0%nat, (1, Qmake 0 1)) ∧
  c_valid r = true ∧ c_lc_img_idx r = 1.
Proof.
  intros st r.
  assert (reaches_loop st.1 = true) as Hreach by (vm_compute; reflexivity).
  assert (list_find (λ c : Z * float, acceptable st.1 st.2 c.1 = true)
                    (shortlist keeping st.1) = Some (0%nat, (1, Qmake 0 1)))
    as Hfind by (vm_compute; reflexivity).
  split; [exact Hreach|]. split; [exact Hfind|].
  pose proof (first_acceptable_candidate keeping st.1 st.2 7 "stale" 5 Hreach)
    as H.
  rewrite Hfind in H. exact H.
Defined.

Lemma no_closure_after_loop_witness :
  let st := ingest (session keeping (started false (params 2 2 false)) revisit)
                   stranger in
  let r := getLoopClosure keeping st.1 st.2 7 "stale" 5 in
  reaches_loop st.1 = true ∧ c_valid r = false ∧
  validate (params_ st.1) = false ∧
  c_lc_img_idx r = -1 ∧ c_lc_name r = EmptyString ∧ c_trans r = tf_identity.
Proof.
  intros st r.
  assert (reaches_loop st.1 = true) as Hreach by (vm_compute; reflexivity).
  assert (c_valid r = false) as Hno by (vm_compute; reflexivity).
  assert (validate (params_ st.1) = false) as Hval by reflexivity.
  split; [exact Hreach|]. split; [exact Hno|]. split; [exact Hval|].
  destruct (no_closure_after_loop keeping st.1 st.2 7 "stale" 5 Hreach Hno)
    as (Hidx & Hname & Htrans).
  split; [exact Hidx|]. split; [exact Hname|]. exact (Htrans Hval).
Defined.

Lemma closure_names_record_witness :
  let st := revisited false true 2 revisit in
  let r := getLoopClosure keeping st.1 st.2 7 "stale" 5 in
  c_valid r = true ∧
  ∃ f, files st.2 !! record_file (params_ st.1) (c_lc_img_idx r) = Some f ∧
       c_lc_name r = yml_name f.
Proof.
  intros st r.
  assert (c_valid r = true) as Hv by (vm_compute; reflexivity).
  split; [exact Hv|].
  exact (closure_names_record keeping st.1 st.2 7 "stale" 5 Hv).
Defined.

Lemma accepted_verification_witness :
  let st := revisited false true 2 revisit in
  let r := compute st.1 st.2 (img_ st.1) (record_file (params_ st.1) 1)
                   "stale" 5 in
  v_valid r = true ∧
  ∃ f, files st.2 !! record_file (params_ st.1) 1 = Some f ∧
       v_lc_name r = yml_name f ∧
       min_matches (params_ st.1) ≤ v_matches r ∧
       min_inliers (params_ st.1) ≤ v_inliers r ∧
       (mono_file f = true → v_trans r = 5).
Proof.
  intros st r.
  assert (v_valid r = true) as Hv by (vm_compute; reflexivity).
  split; [exact Hv|].
  exact (accepted_verification st.1 st.2 (img_ st.1)
           (record_file (params_ st.1) 1) "stale" 5 Hv).
Defined.

Lemma rejected_verification_witness :
  let st := revisited false true 2 lone_stereo in
  let r := compute st.1 st.2 (img_ st.1) (record_file (params_ st.1) 2)
                   "stale" 5 in
  v_valid r = false ∧ v_trans r = 5.
Proof.
  intros st r.
  assert (v_valid r = false) as Hv by (vm_compute; reflexivity).
  split; [exact Hv|].
  exact (rejected_verification st.1 st.2 (img_ st.1)
           (record_file (params_ st.1) 2) "stale" 5 Hv).
Defined.

Lemma negative_min_neighbour_witness :
  let st := revisited false false (-1) revisit in
  let r := getLoopClosure keeping st.1 st.2 7 "stale" 5 in
  is_int (-1) ∧ -1 < 0 ∧
  Z.of_nat (length (hash_table_ st.1)) < 2 ^ 63 ∧
  c_valid r = false ∧ c_trace r = [].
Proof.
  intros st r.
  assert (is_int (min_neighbour (params_ st.1))) as Hint
    by (change (is_int (-1)); unfold is_int; lia).
  assert (min_neighbour (params_ st.1) < 0) as Hneg
    by (change (-1 < 0); lia).
  assert (Z.of_nat (length (hash_table_ st.1)) < 2 ^ 63) as Hlen
    by (vm_compute; reflexivity).
  split; [exact Hint|]. split; [exact Hneg|]. split; [exact Hlen|].
  exact (negative_min_neighbour keeping st.1 st.2 7 "stale" 5 Hint Hneg Hlen).
Defined.

Lemma candidate_count_witness :
  let st := revisited false false 2 revisit in
  is_int 2 ∧ 0 ≤ 2 ∧
  Z.of_nat (length (appended st.1)) < 2 ^ 64 ∧
  reaches_loop st.1 = true ∧
  Z.of_nat (length (candidates keeping st.1))
  = Z.of_nat (length (appended st.1)) - 2.
Proof.
  intros st.
  assert (is_int (min_neighbour (params_ st.1))) as Hint
    by (change (is_int 2); unfold is_int; lia).
  assert (0 ≤ min_neighbour (params_ st.1)) as Hpos
    by (change (0 ≤ 2); lia).
  assert (Z.of_nat (length (appended st.1)) < 2 ^ 64) as Hlen
    by (vm_compute; reflexivity).
  assert (reaches_loop st.1 = true) as Hreach by (vm_compute; reflexivity).
  split; [exact Hint|]. split; [exact Hpos|]. split; [exact Hlen|].
  split; [exact Hreach|].
  exact (candidate_count keeping st.1 Hint Hpos Hlen Hreach).
Defined.

Lemma current_image_is_candidate_witness :
  let st := revisited false false 0 revisit in
  hash_isInitialized (hash_ st.1) = true ∧
  min_neighbour (params_ st.1) = 0 ∧
  Z.of_nat (length (appended st.1)) < 2 ^ 64 ∧
  reaches_loop st.1 = true ∧
  img_idx_ st.1 - 1 ∈ (candidates keeping st.1).*1.
Proof.
  intros st.
  assert (hash_isInitialized (hash_ st.1) = true) as Hinit
    by (vm_compute; reflexivity).
  assert (min_neighbour (params_ st.1) = 0) as Hmn by reflexivity.
  assert (Z.of_nat (length (appended st.1)) < 2 ^ 64) as Hlen
    by (vm_compute; reflexivity).
  split; [exact Hinit|]. split; [exact Hmn|]. split; [exact Hlen|].
  exact (current_image_is_candidate keeping st.1 Hinit Hmn Hlen).
Defined.

(** With [min_neighbour] 0 an image of a new place closes a loop with
    itself. *)
Example closure_with_itself :
  let st := ingest (session keeping (started false (params 0 2 false)) revisit)
                   stranger in
  let r := getLoopClosure keeping st.1 st.2 7 "stale" 5 in
  c_valid r = true ∧ c_lc_img_idx r = img_idx_ st.1 - 1 ∧
  c_lc_name r = "img5"%string.
Proof. vm_compute. repeat split; reflexivity. Qed.

Lemma ingested_record_reads_back_witness :
  let st := session keeping (started false (params 2 2 false)) revisit in
  dir_ok st.2 = true ∧
  (∃ kp desc threed,
     files (ingest st again).2 !! record_file (params_ st.1) (img_idx_ st.1)
     = Some (Yml (obs_name again) kp desc threed) ∧
     (∀ img name, again = Mono img name → threed = [])) ∧
  img_idx_ (ingest st again).1 = img_idx_ st.1 + 1.
Proof.
  intros st.
  assert (dir_ok st.2 = true) as Hdir by (vm_compute; reflexivity).
  split; [exact Hdir|].
  destruct (ingested_record_reads_back st again Hdir) as (Hrec & Hidx & _).
  split; [exact Hrec | exact Hidx].
Defined.

Lemma closure_name_is_ingested_name_witness :
  let st := session keeping (init (object false (params 2 2 true)) 0 true).1
                    revisit in
  let r := query keeping st again 7 "stale" 5 in
  c_valid r = true ∧
  ∃ i o', (revisit ++ [again]) !! i = Some o' ∧
          c_lc_img_idx r = Z.of_nat i ∧ c_lc_name r = obs_name o'.
Proof.
  intros st r.
  assert (c_valid r = true) as Hv by (vm_compute; reflexivity).
  split; [exact Hv|].
  exact (closure_name_is_ingested_name keeping (object false (params 2 2 true))
           0 revisit again 7 "stale" 5 Hv).
Defined.

Lemma distinct_indices_distinct_files_witness :
  (1 : Z) ≠ 11 ∧
  record_file (params 2 2 false) 1 ≠ record_file (params 2 2 false) 11.
Proof.
  assert ((1 : Z) ≠ 11) as Hne by lia.
  split; [exact Hne|].
  exact (distinct_indices_distinct_files (params 2 2 false) 1 11 Hne).
Defined.

(** Four images; the ground truth pairs image 2 with image 0. The library
    answered image 0 for image 2 and image 2 for image 3. *)
Definition ground_truth : list (list Z) :=
  [[0; 0; 0; 0]; [0; 0; 0; 0]; [1; 0; 0; 0]; [0; 0; 0; 0]].

Definition answers : list (bool * Z) :=
  [(false, -1); (false, -1); (true, 0); (true, 2)].

Definition scored : Tally :=
  {| found_lc := 2; true_positives := 1; false_positives := 1 |}.

Lemma window_decides_true_positive_witness :
  0 ≤ 1 ∧ 0 ≤ 0 ∧ 0 + 1 < Z.of_nat (length [1; 0; 0; 0]) ∧
  (∀ g, g ∈ [1; 0; 0; 0] → 0 ≤ g ≤ 1) ∧
  1 * (2 * 1 + 1) < 2 ^ 31 ∧
  ∃ g, gt_valid [1; 0; 0; 0] 0 1 = Some g ∧
       (1 ≤ g ↔ ∃ j v, Z.max 0 (0 - 1) ≤ j ≤ 0 + 1 ∧
                       [1; 0; 0; 0] !! Z.to_nat j = Some v ∧ 1 ≤ v).
Proof.
  assert (0 ≤ 1) as Htol by lia.
  assert (0 ≤ 0) as Hlc by lia.
  assert (0 + 1 < Z.of_nat (length [1; 0; 0; 0])) as Hend by (simpl; lia).
  assert (∀ g, g ∈ [1; 0; 0; 0] → 0 ≤ g ≤ 1) as Hpos.
  { intros g Hg. repeat (apply elem_of_cons in Hg as [->|Hg]; [lia|]).
    by apply elem_of_nil in Hg. }
  assert (1 * (2 * 1 + 1) < 2 ^ 31) as Hfit by lia.
  split; [exact Htol|]. split; [exact Hlc|]. split; [exact Hend|].
  split; [exact Hpos|]. split; [exact Hfit|].
  exact (MonoDriverFacts.window_decides_true_positive [1; 0; 0; 0] 0 1 1
           Htol Hlc Hend Hpos Hfit).
Defined.

(** Without the bound the sum wraps: a row whose window holds [INT_MAX]
    and 1 sums to [INT_MIN], and the closure counts as a false positive. *)
Example window_sum_wraps :
  gt_valid [2147483647; 1; 0] 1 1 = Some (-2147483648) ∧
  check_closure [[2147483647; 1; 0]] 1 tally0 0 true 1
  = Some {| found_lc := 1; true_positives := 0; false_positives := 1 |}.
Proof. vm_compute. split; reflexivity. Qed.

Lemma window_reads_past_row_witness :
  0 ≤ 1 ∧ Z.of_nat (length [0; 0; 0; 0]) ≤ 3 + 1 ∧
  gt_valid [0; 0; 0; 0] 3 1 = None.
Proof.
  assert (0 ≤ 1) as Htol by lia.
  assert (Z.of_nat (length [0; 0; 0; 0]) ≤ 3 + 1) as Hend by (simpl; lia).
  split; [exact Htol|]. split; [exact Hend|].
  exact (MonoDriverFacts.window_reads_past_row [0; 0; 0; 0] 3 1 Htol Hend).
Defined.

Lemma every_closure_is_scored_once_witness :
  score ground_truth 1 answers 0 tally0 = Some scored ∧
  found_lc scored
  = Z.of_nat (length (filter (λ r : bool * Z, r.1 = true) answers)) ∧
  true_positives scored + false_positives scored = found_lc scored ∧
  0 ≤ true_positives scored ∧ 0 ≤ false_positives scored.
Proof.
  assert (score ground_truth 1 answers 0 tally0 = Some scored) as Hscore
    by (vm_compute; reflexivity).
  split; [exact Hscore|].
  exact (MonoDriverFacts.every_closure_is_scored_once ground_truth 1 answers
           scored Hscore).
Defined.

Lemma printed_figures_witness :
  score ground_truth 1 answers 0 tally0 = Some scored ∧
  precision scored = Some 50 ∧
  recall (total_lc ground_truth) scored = None.
Proof.
  assert (score ground_truth 1 answers 0 tally0 = Some scored) as Hscore
    by (vm_compute; reflexivity).
  split; [exact Hscore|]. split; [reflexivity|].
  destruct (MonoDriverFacts.printed_figures ground_truth 1 answers scored
              (total_lc ground_truth) Hscore) as (_ & _ & ->).
  reflexivity.
Defined.

End ToyExtras.
